(** * core-js-101, [src/06-objects-tasks.js]

    A shallow embedding of the object tasks: the [Rectangle] constructor,
    the JSON helpers [getJSON] / [fromJSON] and the CSS selector builder
    ([SelectorBuilder] and the [cssSelectorBuilder] facade), followed by
    the properties of the specification that were checked against them. *)

From Stdlib Require Import ZArith List String Ascii Bool Lia.
From Stdlib Require Import DecimalString DecimalN DecimalFacts.
Import ListNotations.

Local Open Scope Z_scope.
Local Open Scope list_scope.
Local Open Scope string_scope.

(* ===================================================================== *)
(** ** JavaScript completions over a store of objects *)
(* ===================================================================== *)

(** Objects are mutable and handed around by reference, so every class of
    the file is modelled over a store; a method is a function from the
    store to a completion and the store it leaves behind.  A [throw]
    keeps the store reached so far: what was written before the throw
    stays written. *)
Module JS.

(** What a [throw] carries.  The builder throws plain strings; a member
    access through something that is not an object is the engine's own
    [TypeError]. *)
Inductive thrown : Type :=
| ThrownString (msg : string)
| TypeError.

Inductive completion (A : Type) : Type :=
| Normal (a : A)
| Throw (e : thrown).
Arguments Normal {A} a.
Arguments Throw {A} e.

Definition ref := nat.

Section Monad.
Context {S : Type}.

Definition M (A : Type) : Type := S -> completion A * S.

Definition ret {A} (a : A) : M A := fun h => (Normal a, h).

Definition throw {A} (e : thrown) : M A := fun h => (Throw e, h).

Definition bind {A B} (m : M A) (f : A -> M B) : M B :=
  fun h =>
    match m h with
    | (Normal a, h') => f a h'
    | (Throw e, h') => (Throw e, h')
    end.
End Monad.
Arguments M S A : clear implicits.

(** Writing slot [l] of a store; nothing happens out of range (the
    callers below only write through references they have just read). *)
Fixpoint update {A} (l : ref) (x : A) (h : list A) : list A :=
  match h, l with
  | [], _ => []
  | _ :: h', O => x :: h'
  | y :: h', S l' => y :: update l' x h'
  end.

End JS.

Import JS.

Declare Scope js_scope.
Delimit Scope js_scope with js.
Notation "x <- m ;; k" := (bind m (fun x => k))
  (at level 100, m at next level, right associativity) : js_scope.
Notation "m ;; k" := (bind m (fun _ => k))
  (at level 100, right associativity) : js_scope.
Local Open Scope js_scope.

(* ===================================================================== *)
(** ** class SelectorBuilder *)
(* ===================================================================== *)

Module SelectorBuilder.

(** The two instance fields set by the constructor. *)
Record t : Type := mk { selector : string; order : Z }.

Definition heap := list t.

(** [SelectorBuilder.ORDER] *)
Module ORDER.
Definition initial : Z := 0.
Definition element : Z := 1.
Definition id : Z := 2.
Definition class : Z := 3.
Definition attribute : Z := 4.
Definition pseudoClass : Z := 5.
Definition pseudoElement : Z := 6.
End ORDER.

Definition wrongOrderProblem : string :=
  "Selector parts should be arranged in the following order: element, id, class, attribute, pseudo-class, pseudo-element".

Definition uniquenessProblem : string :=
  "Element, id and pseudo-element should not occur more then one time inside the selector".

(** Field reads and writes through a reference. *)
Definition get_selector (this : ref) : M heap string :=
  fun h =>
    match nth_error h this with
    | Some o => (Normal (selector o), h)
    | None => (Throw TypeError, h)
    end.

Definition get_order (this : ref) : M heap Z :=
  fun h =>
    match nth_error h this with
    | Some o => (Normal (order o), h)
    | None => (Throw TypeError, h)
    end.

Definition set_selector (this : ref) (v : string) : M heap unit :=
  fun h =>
    match nth_error h this with
    | Some o => (Normal tt, update this (mk v (order o)) h)
    | None => (Throw TypeError, h)
    end.

Definition set_order (this : ref) (v : Z) : M heap unit :=
  fun h =>
    match nth_error h this with
    | Some o => (Normal tt, update this (mk (selector o) v) h)
    | None => (Throw TypeError, h)
    end.

(** [new SelectorBuilder()]: a fresh object, [selector = ''] and
    [order = ORDER.initial]. *)
Definition new : M heap ref :=
  fun h => (Normal (List.length h), (h ++ [mk EmptyString ORDER.initial])%list).

(** [Array.prototype.includes] on an array of numbers. *)
Definition includes (xs : list Z) (x : Z) : bool := existsb (Z.eqb x) xs.

Definition updateOrder (this : ref) (order : Z) : M heap unit :=
  cur <- get_order this ;;
  if (order =? cur)%Z
       && includes [ORDER.element; ORDER.id; ORDER.pseudoElement] order
  then throw (ThrownString uniquenessProblem)
  else
      if (order <? cur)%Z then throw (ThrownString wrongOrderProblem)
      else set_order this order.

Definition element (this : ref) (element : string) : M heap ref :=
  updateOrder this ORDER.element ;;
  s <- get_selector this ;;
  set_selector this (s ++ element) ;;
  ret this.

Definition id (this : ref) (id : string) : M heap ref :=
  updateOrder this ORDER.id ;;
  s <- get_selector this ;;
  set_selector this (s ++ ("#" ++ id)) ;;
  ret this.

Definition class (this : ref) (className : string) : M heap ref :=
  updateOrder this ORDER.class ;;
  s <- get_selector this ;;
  set_selector this (s ++ ("." ++ className)) ;;
  ret this.

Definition attr (this : ref) (attribute : string) : M heap ref :=
  updateOrder this ORDER.attribute ;;
  s <- get_selector this ;;
  set_selector this (s ++ ("[" ++ attribute ++ "]")) ;;
  ret this.

Definition pseudoClass (this : ref) (pseudoClass : string) : M heap ref :=
  updateOrder this ORDER.pseudoClass ;;
  s <- get_selector this ;;
  set_selector this (s ++ (":" ++ pseudoClass)) ;;
  ret this.

Definition pseudoElement (this : ref) (pseudoElement : string) : M heap ref :=
  updateOrder this ORDER.pseudoElement ;;
  s <- get_selector this ;;
  set_selector this (s ++ ("::" ++ pseudoElement)) ;;
  ret this.

Definition stringify (this : ref) : M heap string := get_selector this.

(** The template literal is evaluated, both [stringify] calls included,
    before the assignment to [this.selector]. *)
Definition combine (this : ref) (selector1 : ref) (combinator : string)
             (selector2 : ref) : M heap ref :=
  s1 <- stringify selector1 ;;
  s2 <- stringify selector2 ;;
  set_selector this (s1 ++ " " ++ combinator ++ " " ++ s2) ;;
  ret this.

End SelectorBuilder.

(** The facade object: every entry point starts from a fresh builder. *)
Module cssSelectorBuilder.
Import SelectorBuilder.

Definition element (element : string) : M heap ref :=
  r <- SelectorBuilder.new ;; SelectorBuilder.element r element.
Definition id (id : string) : M heap ref :=
  r <- SelectorBuilder.new ;; SelectorBuilder.id r id.
Definition class (className : string) : M heap ref :=
  r <- SelectorBuilder.new ;; SelectorBuilder.class r className.
Definition attr (attribute : string) : M heap ref :=
  r <- SelectorBuilder.new ;; SelectorBuilder.attr r attribute.
Definition pseudoClass (pseudoClass : string) : M heap ref :=
  r <- SelectorBuilder.new ;; SelectorBuilder.pseudoClass r pseudoClass.
Definition pseudoElement (pseudoElement : string) : M heap ref :=
  r <- SelectorBuilder.new ;; SelectorBuilder.pseudoElement r pseudoElement.
Definition combine (selector1 : ref) (combinator : string) (selector2 : ref)
  : M heap ref :=
  r <- SelectorBuilder.new ;; SelectorBuilder.combine r selector1 combinator selector2.

End cssSelectorBuilder.

(** *** Fragment kinds

    The six fragment methods differ only in the rank they pass to
    [updateOrder] and in the text they append; [fragment] dispatches on
    the kind so that statements can range over "every fragment
    operation". *)
Module Fragment.
Import SelectorBuilder.

Inductive FragmentKind : Type :=
| Element | Id | Class | Attribute | PseudoClass | PseudoElement.

Definition rank (k : FragmentKind) : Z :=
  match k with
  | Element => ORDER.element
  | Id => ORDER.id
  | Class => ORDER.class
  | Attribute => ORDER.attribute
  | PseudoClass => ORDER.pseudoClass
  | PseudoElement => ORDER.pseudoElement
  end.

(** The kinds that may occur at most once. *)
Definition unique (k : FragmentKind) : bool :=
  match k with
  | Element | Id | PseudoElement => true
  | Class | Attribute | PseudoClass => false
  end.

(** The fragment texts as the specification lists them. *)
Definition fragment_text (k : FragmentKind) (name : string) : string :=
  match k with
  | Element => name
  | Id => "#" ++ name
  | Class => "." ++ name
  | Attribute => "[" ++ name ++ "]"
  | PseudoClass => ":" ++ name
  | PseudoElement => "::" ++ name
  end.

(** The method of a builder for each kind. *)
Definition fragment (k : FragmentKind) (this : ref) (name : string)
  : M heap ref :=
  match k with
  | Element => SelectorBuilder.element this name
  | Id => SelectorBuilder.id this name
  | Class => SelectorBuilder.class this name
  | Attribute => SelectorBuilder.attr this name
  | PseudoClass => SelectorBuilder.pseudoClass this name
  | PseudoElement => SelectorBuilder.pseudoElement this name
  end.

(** The facade entry point for each kind. *)
Definition entry (k : FragmentKind) (name : string) : M heap ref :=
  match k with
  | Element => cssSelectorBuilder.element name
  | Id => cssSelectorBuilder.id name
  | Class => cssSelectorBuilder.class name
  | Attribute => cssSelectorBuilder.attr name
  | PseudoClass => cssSelectorBuilder.pseudoClass name
  | PseudoElement => cssSelectorBuilder.pseudoElement name
  end.

(** [b.m1(x1).m2(x2)...]: every method returns [this], the next call is
    made on what the previous one returned. *)
Fixpoint chain (this : ref) (fs : list (FragmentKind * string))
  : M heap ref :=
  match fs with
  | [] => ret this
  | (k, name) :: fs' => r <- fragment k this name ;; chain r fs'
  end.

(** [cssSelectorBuilder.m1(x1).m2(x2)...] *)
Definition build (f : FragmentKind * string)
           (fs : list (FragmentKind * string)) : M heap ref :=
  r <- entry (fst f) (snd f) ;; chain r fs.

(** The text a sequence of fragments is expected to render to. *)
Fixpoint texts (fs : list (FragmentKind * string)) : string :=
  match fs with
  | [] => EmptyString
  | (k, name) :: fs' => fragment_text k name ++ texts fs'
  end.

Fixpoint nondecreasing (rs : list Z) : bool :=
  match rs with
  | [] => true
  | r :: rs' =>
      match rs' with
      | [] => true
      | r' :: _ => (r <=? r')%Z && nondecreasing rs'
      end
  end.

Definition kind_eqb (a b : FragmentKind) : bool := (rank a =? rank b)%Z.

Definition occurrences (k : FragmentKind) (ks : list FragmentKind) : nat :=
  List.length (filter (kind_eqb k) ks).

(** A valid ordering: ranks never decrease and each of the three unique
    kinds is used at most once. *)
Definition valid_ordering (ks : list FragmentKind) : Prop :=
  nondecreasing (map rank ks) = true /\
  (occurrences Element ks <= 1)%nat /\
  (occurrences Id ks <= 1)%nat /\
  (occurrences PseudoElement ks <= 1)%nat.


(** The two failures of the specification, as the completions they are. *)
Definition OrderViolation {A} : completion A :=
  Throw (ThrownString wrongOrderProblem).

Definition DuplicateViolation {A} : completion A :=
  Throw (ThrownString uniquenessProblem).

(** [admissible cur ks]: starting from recorded rank [cur], none of the
    calls [ks] trips a guard of [updateOrder]. *)
Fixpoint admissible (cur : Z) (ks : list FragmentKind) : Prop :=
  match ks with
  | [] => True
  | k :: ks' =>
      (cur <= rank k)%Z /\
      (rank k =? cur)%Z && unique k = false /\
      admissible (rank k) ks'
  end.

(** The rank recorded after the calls [fs]. *)
Definition final_rank (cur : Z) (fs : list (FragmentKind * string)) : Z :=
  fold_left (fun _ f => rank (fst f)) fs cur.

(** The kind appended last by the calls [f :: fs]. *)
Definition last_kind (f : FragmentKind * string)
           (fs : list (FragmentKind * string)) : FragmentKind :=
  fst (last fs f).

(** The reading of the duplicate rule under which every second element,
    id or pseudo-element call is reported as a duplicate, whatever was
    appended in between. *)
Definition every_repeat_is_DuplicateViolation : Prop :=
  forall (f : FragmentKind * string) (fs : list (FragmentKind * string))
         (h : heap) (r : ref) (h' : heap) (k : FragmentKind) (name : string),
    build f fs h = (Normal r, h') ->
    unique k = true ->
    In k (map fst (f :: fs)) ->
    fst (fragment k r name h') = DuplicateViolation.

(** The reading of the chained-combine rule under which every later call
    of equal or lower rank is rejected. *)
Definition equal_or_lower_rank_always_raises : Prop :=
  forall (h : heap) (this l r : ref) (c : string) (o : t) (h' : heap)
         (k : FragmentKind) (name : string),
    nth_error h this = Some o ->
    SelectorBuilder.combine this l c r h = (Normal this, h') ->
    (rank k <= order o)%Z ->
    fst (fragment k this name h') = OrderViolation \/
    fst (fragment k this name h') = DuplicateViolation.

End Fragment.

(* ===================================================================== *)
(** ** function Rectangle *)
(* ===================================================================== *)

(** [Rectangle.prototype] is one object shared by every instance, and the
    constructor assigns to its [getArea] slot on each call.  The value
    assigned is an arrow function, which keeps the [this] of the
    constructor call that created it and ignores the receiver it is
    later called on.  The arithmetic of numbers plays no part, so the
    model is parametric in the number type and its product. *)
Module Rectangle.
Section Numbers.
Context {number : Type} (times : number -> number -> number).

(** The own properties the constructor sets on an instance. *)
Record instance : Type := mkInstance { width : number; height : number }.

(** [() => this.width * this.height], by the [this] it closed over. *)
Record arrow : Type := mkArrow { captured_this : ref }.

(** The instances allocated so far and the [getArea] slot of
    [Rectangle.prototype] ([None]: not assigned yet). *)
Record world : Type :=
  mkWorld { instances : list instance; prototype_getArea : option arrow }.

(** [new Rectangle(width, height)] *)
Definition new (width height : number) : M world ref :=
  fun w =>
    let this := List.length (instances w) in
    (Normal this,
     mkWorld (instances w ++ [mkInstance width height])%list
             (Some (mkArrow this))).

(** Calling the arrow function: the fields are read, at the time of the
    call, from the instance it closed over. *)
Definition call (f : arrow) : M world number :=
  fun w =>
    match nth_error (instances w) (captured_this f) with
    | Some o => (Normal (times (width o) (height o)), w)
    | None => (Throw TypeError, w)
    end.

(** [r.getArea()]: [getArea] is not an own property of an instance, so it
    is found on the prototype. *)
Definition getArea (r : ref) : M world number :=
  fun w =>
    match nth_error (instances w) r with
    | Some _ =>
        match prototype_getArea w with
        | Some f => call f w
        | None => (Throw TypeError, w)
        end
    | None => (Throw TypeError, w)
    end.

End Numbers.
End Rectangle.

(** *** Reading the fields of an instance

    [r.width] and [r.height]: own data properties of the instance, set by
    the constructor and read straight from it. *)
Module RectangleFields.
Section Numbers.
Context {number : Type}.

Definition get_width (r : ref) : M (@Rectangle.world number) number :=
  fun w =>
    match nth_error (Rectangle.instances w) r with
    | Some o => (Normal (Rectangle.width o), w)
    | None => (Throw TypeError, w)
    end.

Definition get_height (r : ref) : M (@Rectangle.world number) number :=
  fun w =>
    match nth_error (Rectangle.instances w) r with
    | Some o => (Normal (Rectangle.height o), w)
    | None => (Throw TypeError, w)
    end.

End Numbers.
End RectangleFields.

(* ===================================================================== *)
(** ** getJSON and fromJSON *)
(* ===================================================================== *)

(** The two helpers are one-line wrappers around [JSON.stringify],
    [JSON.parse], [Object.values] and a constructor call, so the model
    has to say what these do.  It covers flat objects: an object is the
    sequence of its own enumerable string-keyed properties in the order
    in which the engine enumerates them, and a property value is a
    primitive.  Numbers are the integers (a [Number] holds them exactly
    up to [2^53 - 1] in absolute value), strings are sequences of code
    units below 256. *)
Module JSON.

Inductive value : Type :=
| JUndefined
| JNull
| JBoolean (b : bool)
| JNumber (n : Z)
| JString (s : string).

Definition object := list (string * value).

(** *** Property order

    Keys that are array indices (canonical decimal numerals below
    [2^32 - 1]) are enumerated first, in ascending numeric order; all
    other keys follow in the order of their creation. *)
Definition array_index (key : string) : option N :=
  match NilEmpty.uint_of_string key with
  | Some d =>
      if Decimal.uint_beq d Decimal.Nil then None
      else if Decimal.uint_beq (Decimal.unorm d) d
           then if (N.of_uint d <? 4294967295)%N then Some (N.of_uint d)
                else None
           else None
  | None => None
  end.

(** Does a newly created key [k] come before the existing key [k']? *)
Definition precedes (k k' : string) : bool :=
  match array_index k, array_index k' with
  | Some n, Some n' => (n <? n')%N
  | Some _, None => true
  | None, _ => false
  end.

Fixpoint get (key : string) (o : object) : option value :=
  match o with
  | [] => None
  | (k, v) :: o' => if (k =? key)%string then Some v else get key o'
  end.

Fixpoint replace (key : string) (v : value) (o : object) : object :=
  match o with
  | [] => []
  | (k, v') :: o' =>
      if (k =? key)%string then (k, v) :: o' else (k, v') :: replace key v o'
  end.

Fixpoint insert (key : string) (v : value) (o : object) : object :=
  match o with
  | [] => [(key, v)]
  | (k, v') :: o' =>
      if precedes key k then (key, v) :: o else (k, v') :: insert key v o'
  end.

(** [CreateDataProperty], also what [this.key = v] does on a plain
    object: an existing property keeps its place. *)
Definition define_property (key : string) (v : value) (o : object) : object :=
  match get key o with
  | Some _ => replace key v o
  | None => insert key v o
  end.

Definition Object_keys (o : object) : list string := map fst o.

Definition Object_values (o : object) : list value := map snd o.

(** *** JSON.stringify *)

Definition quotation_mark : ascii := "034"%char.
Definition reverse_solidus : ascii := "092"%char.

Definition hex_digit (n : N) : ascii :=
  match n with
  | 0 => "0" | 1 => "1" | 2 => "2" | 3 => "3" | 4 => "4" | 5 => "5"
  | 6 => "6" | 7 => "7" | 8 => "8" | 9 => "9" | 10 => "a" | 11 => "b"
  | 12 => "c" | 13 => "d" | 14 => "e" | _ => "f"
  end%N%char.

(** [\uXXXX] of a code unit below 256, in lower-case hexadecimal. *)
Definition unicode_escape (c : ascii) : string :=
  String reverse_solidus
    (String "u" (String "0" (String "0"
       (String (hex_digit (N_of_ascii c / 16))
          (String (hex_digit (N_of_ascii c mod 16)) EmptyString))))).

Definition escape_char (c : ascii) : string :=
  if (c =? "008")%char then String reverse_solidus "b"
  else if (c =? "009")%char then String reverse_solidus "t"
  else if (c =? "010")%char then String reverse_solidus "n"
  else if (c =? "012")%char then String reverse_solidus "f"
  else if (c =? "013")%char then String reverse_solidus "r"
  else if (c =? quotation_mark)%char
       then String reverse_solidus (String quotation_mark EmptyString)
  else if (c =? reverse_solidus)%char
       then String reverse_solidus (String reverse_solidus EmptyString)
  else if (N_of_ascii c <? 32)%N then unicode_escape c
  else String c EmptyString.

Fixpoint escape (s : string) : string :=
  match s with
  | EmptyString => EmptyString
  | String c s' => escape_char c ++ escape s'
  end.

Definition QuoteJSONString (s : string) : string :=
  String quotation_mark (escape s ++ String quotation_mark EmptyString).

(** [Number::toString] of an integer below [10^21] in absolute value:
    its decimal digits, after a minus sign when it is negative. *)
Definition Number_toString (n : Z) : string :=
  let digits := NilEmpty.string_of_uint (N.to_uint (Z.abs_N n)) in
  if (n <? 0)%Z then String "-" digits else digits.

(** [None]: the property is left out ([undefined] has no JSON text). *)
Definition SerializeJSONProperty (v : value) : option string :=
  match v with
  | JUndefined => None
  | JNull => Some "null"
  | JBoolean true => Some "true"
  | JBoolean false => Some "false"
  | JNumber n => Some (Number_toString n)
  | JString s => Some (QuoteJSONString s)
  end.

Fixpoint members (o : object) : list string :=
  match o with
  | [] => []
  | (k, v) :: o' =>
      match SerializeJSONProperty v with
      | Some text => (QuoteJSONString k ++ ":" ++ text) :: members o'
      | None => members o'
      end
  end.

Definition JSON_stringify (o : object) : string :=
  match members o with
  | [] => "{}"
  | m :: ms => "{" ++ String.concat "," (m :: ms) ++ "}"
  end.

(** *** JSON.parse

    The parser reads the object grammar with primitive member values:
    insignificant white space, the escapes of strings, integers without
    fraction or exponent.  [None] stands for a [SyntaxError] and for the
    texts that are valid JSON but leave the model (nested values,
    fractions and exponents, negative zero, integers that a [Number]
    cannot hold exactly, escapes of code units from 256 on, a top-level
    value that is not an object). *)

Definition is_ws (c : ascii) : bool :=
  ((c =? " ") || (c =? "009") || (c =? "010") || (c =? "013"))%char.

Fixpoint skip_ws (s : string) : string :=
  match s with
  | EmptyString => EmptyString
  | String c s' => if is_ws c then skip_ws s' else s
  end.

Definition hex_value (c : ascii) : option N :=
  let n := N_of_ascii c in
  if ((48 <=? n) && (n <=? 57))%N then Some (n - 48)%N
  else if ((97 <=? n) && (n <=? 102))%N then Some (n - 87)%N
  else if ((65 <=? n) && (n <=? 70))%N then Some (n - 55)%N
  else None.

Definition code_unit (a b c d : ascii) : option N :=
  match hex_value a, hex_value b, hex_value c, hex_value d with
  | Some x, Some y, Some z, Some w => Some (((x * 16 + y) * 16 + z) * 16 + w)%N
  | _, _, _, _ => None
  end.

Definition push (c : ascii) (r : option (string * string))
  : option (string * string) :=
  match r with
  | Some (s, rest) => Some (String c s, rest)
  | None => None
  end.

(** The characters of a string, from after its opening quotation mark up
    to the closing one; returns them with the text that follows. *)
Fixpoint parse_chars (s : string) : option (string * string) :=
  match s with
  | EmptyString => None
  | String c s1 =>
      if (c =? quotation_mark)%char then Some (EmptyString, s1)
      else if (c =? reverse_solidus)%char then
        match s1 with
        | EmptyString => None
        | String e s2 =>
            if (e =? quotation_mark)%char then push quotation_mark (parse_chars s2)
            else if (e =? reverse_solidus)%char then push reverse_solidus (parse_chars s2)
            else if (e =? "/")%char then push "/" (parse_chars s2)
            else if (e =? "b")%char then push "008" (parse_chars s2)
            else if (e =? "f")%char then push "012" (parse_chars s2)
            else if (e =? "n")%char then push "010" (parse_chars s2)
            else if (e =? "r")%char then push "013" (parse_chars s2)
            else if (e =? "t")%char then push "009" (parse_chars s2)
            else if (e =? "u")%char then
              match s2 with
              | String h1 (String h2 (String h3 (String h4 s3))) =>
                  match code_unit h1 h2 h3 h4 with
                  | Some n =>
                      if (n <? 256)%N then push (ascii_of_N n) (parse_chars s3)
                      else None
                  | None => None
                  end
              | _ => None
              end
            else None
        end
      else if (N_of_ascii c <? 32)%N then None
      else push c (parse_chars s1)
  end.

Definition is_digit (c : ascii) : bool :=
  ((48 <=? N_of_ascii c) && (N_of_ascii c <=? 57))%N.

(** The longest prefix of digits, and what follows it. *)
Fixpoint span_digits (s : string) : string * string :=
  match s with
  | EmptyString => (EmptyString, EmptyString)
  | String c s' =>
      if is_digit c
      then let (ds, rest) := span_digits s' in (String c ds, rest)
      else (EmptyString, s)
  end.

Definition MAX_SAFE_INTEGER : N := 9007199254740991.

(** The digits of a JSON number without sign: no leading zero, no
    fraction, no exponent, exactly representable. *)
Definition parse_digits (s : string) : option (N * string) :=
  let (ds, rest) := span_digits s in
  let continues :=
    match rest with
    | String c _ => ((c =? ".") || (c =? "e") || (c =? "E"))%char
    | EmptyString => false
    end in
  let leading_zero :=
    match ds with
    | String c (String _ _) => (c =? "0")%char
    | _ => false
    end in
  match ds with
  | EmptyString => None
  | String _ _ =>
      if leading_zero || continues then None
      else
        match NilEmpty.uint_of_string ds with
        | Some d =>
            if (N.of_uint d <=? MAX_SAFE_INTEGER)%N
            then Some (N.of_uint d, rest) else None
        | None => None
        end
  end.

Definition parse_number (s : string) : option (Z * string) :=
  match s with
  | String "-" s' =>
      match parse_digits s' with
      | Some (0%N, _) => None
      | Some (n, rest) => Some (Z.opp (Z.of_N n), rest)
      | None => None
      end
  | _ =>
      match parse_digits s with
      | Some (n, rest) => Some (Z.of_N n, rest)
      | None => None
      end
  end.

(** [word] read off the front of [s]. *)
Fixpoint strip_prefix (word s : string) : option string :=
  match word, s with
  | EmptyString, _ => Some s
  | String a word', String b s' =>
      if (a =? b)%char then strip_prefix word' s' else None
  | String _ _, EmptyString => None
  end.

Definition expect (word : string) (v : value) (s : string)
  : option (value * string) :=
  match strip_prefix word s with
  | Some rest => Some (v, rest)
  | None => None
  end.

Definition parse_value (s : string) : option (value * string) :=
  match s with
  | EmptyString => None
  | String c s' =>
      if (c =? quotation_mark)%char then
        match parse_chars s' with
        | Some (str, rest) => Some (JString str, rest)
        | None => None
        end
      else if (c =? "n")%char then expect "null" JNull s
      else if (c =? "t")%char then expect "true" (JBoolean true) s
      else if (c =? "f")%char then expect "false" (JBoolean false) s
      else
        match parse_number s with
        | Some (n, rest) => Some (JNumber n, rest)
        | None => None
        end
  end.

(** The members of an object, from the first key on; every member is
    defined on the object read so far, in the order of the text.  [fuel]
    bounds the number of members ([JSON_parse] passes the length of the
    text, which no text exhausts). *)
Fixpoint parse_members (fuel : nat) (s : string) (acc : object)
  : option (object * string) :=
  match fuel with
  | O => None
  | S fuel' =>
      match skip_ws s with
      | String q s1 =>
          if (q =? quotation_mark)%char then
            match parse_chars s1 with
            | Some (key, s2) =>
                match skip_ws s2 with
                | String ":" s3 =>
                    match parse_value (skip_ws s3) with
                    | Some (v, s4) =>
                        match skip_ws s4 with
                        | String "," s5 =>
                            parse_members fuel' s5 (define_property key v acc)
                        | String "}" s5 =>
                            Some (define_property key v acc, s5)
                        | _ => None
                        end
                    | None => None
                    end
                | _ => None
                end
            | None => None
            end
          else None
      | EmptyString => None
      end
  end.

Definition parse_object (s : string) : option (object * string) :=
  match skip_ws s with
  | String "{" s1 =>
      match skip_ws s1 with
      | String "}" s2 => Some ([], s2)
      | _ => parse_members (String.length s) s1 []
      end
  | _ => None
  end.

Definition JSON_parse (text : string) : option object :=
  match parse_object text with
  | Some (o, rest) =>
      match skip_ws rest with
      | EmptyString => Some o
      | String _ _ => None
      end
  | None => None
  end.

(** *** Constructors

    A constructor is taken by what [new C(...args)] returns for an
    argument list.  [positional params] is
    [function C(p1, ..., pn) { this.p1 = p1; ...; this.pn = pn; }]; a
    missing argument is [undefined]. *)
Definition constructor := list value -> object.

(** [this.key = v] on the new, plain object of a constructor call: an own
    data property is created or overwritten.  The one exception is the
    key [__proto__], which the accessor inherited from
    [Object.prototype] takes, so that no own property appears. *)
Definition put (key : string) (v : value) (this : object) : object :=
  if (key =? "__proto__")%string then this else define_property key v this.

Fixpoint assign (params : list string) (args : list value) (this : object)
  : object :=
  match params with
  | [] => this
  | p :: params' =>
      assign params' (tl args) (put p (hd JUndefined args) this)
  end.

Definition positional (params : list string) : constructor :=
  fun args => assign params args [].

(** The representation invariant of [object]: keys are distinct and in
    enumeration order. *)
Fixpoint enumeration_order (o : object) : bool :=
  match o with
  | [] => true
  | (k, _) :: o' =>
      forallb (fun kv => negb (String.eqb (fst kv) k) && negb (precedes (fst kv) k)) o'
      && enumeration_order o'
  end.

(** A simple value: one that has a JSON text of its own and is read back
    from it unchanged. *)
Definition simple (v : value) : bool :=
  match v with
  | JUndefined => false
  | JNull | JBoolean _ | JString _ => true
  | JNumber n => (Z.abs n <=? Z.of_N MAX_SAFE_INTEGER)%Z
  end.

(** No own property of the name that assignment cannot create. *)
Definition assignable (o : object) : bool :=
  forallb (fun kv => negb (fst kv =? "__proto__")%string) o.

(** A simple flat object: a well-formed object of simple values, all of
    them in fields that a constructor can assign. *)
Definition simple_flat (o : object) : bool :=
  enumeration_order o && forallb (fun kv => simple (snd kv)) o
  && assignable o.

(** The members [o], defined one after the other on [acc]. *)
Definition define_all (o acc : object) : object :=
  fold_left (fun a kv => define_property (fst kv) (snd kv) a) o acc.

(** What follows a member value in the text of an object. *)
Definition delimited (tail : string) : Prop :=
  exists s, tail = String "," s \/ tail = String "}" s.

End JSON.

(** [getJSON(obj)] *)
Definition getJSON (obj : JSON.object) : string := JSON.JSON_stringify obj.

(** [fromJSON(proto, json)]; [proto] enters through [proto.constructor]
    only.  [None] when [JSON.parse] gives no object (see there). *)
Definition fromJSON (proto_constructor : JSON.constructor) (json : string)
  : option JSON.object :=
  match JSON.JSON_parse json with
  | Some obj =>
      let values := JSON.Object_values obj in
      Some (proto_constructor values)
  | None => None
  end.

(** The fields of an object that hold something other than [undefined]. *)
Definition defined_fields (o : JSON.object) : JSON.object :=
  filter (fun kv => match snd kv with
                    | JSON.JUndefined => false
                    | _ => true
                    end) o.


(* ===================================================================== *)
(** * Properties *)
(* ===================================================================== *)

Import SelectorBuilder Fragment.

(** ** Stores *)

Lemma nth_error_update_eq {A} (h : list A) l x y :
  nth_error h l = Some y -> nth_error (update l x h) l = Some x.
Proof.
  revert l; induction h as [|z h IH]; intros [|l]; simpl; try discriminate; auto.
Qed.

Lemma update_update {A} (h : list A) l x y :
  update l x (update l y h) = update l x h.
Proof.
  revert l; induction h as [|z h IH]; intros [|l]; simpl; auto.
  now rewrite IH.
Qed.

Lemma update_same {A} (h : list A) l x :
  nth_error h l = Some x -> update l x h = h.
Proof.
  revert l; induction h as [|z h IH]; intros [|l]; simpl; try discriminate.
  - now intros [= ->].
  - intros H. now rewrite IH.
Qed.

Lemma nth_error_alloc {A} (h : list A) x :
  nth_error (h ++ [x])%list (List.length h) = Some x.
Proof.
  rewrite nth_error_app2 by apply Nat.le_refl.
  now rewrite Nat.sub_diag.
Qed.

Lemma update_alloc {A} (h : list A) x y :
  update (List.length h) x (h ++ [y])%list = (h ++ [x])%list.
Proof. induction h as [|z h IH]; simpl; [reflexivity | now rewrite IH]. Qed.

Lemma nth_error_alloc_old {A} (h : list A) x l y :
  nth_error h l = Some y -> nth_error (h ++ [x])%list l = Some y.
Proof.
  intros H. rewrite nth_error_app1; auto.
  apply nth_error_Some. congruence.
Qed.

(** String concatenation: associativity and the right unit. *)
Lemma append_assoc (a b c : string) : (a ++ b) ++ c = a ++ (b ++ c).
Proof. induction a as [|x a IH]; simpl; [reflexivity | now rewrite IH]. Qed.

Lemma append_nil_r (a : string) : a ++ EmptyString = a.
Proof. induction a as [|x a IH]; simpl; [reflexivity | now rewrite IH]. Qed.


(** ** One fragment call, as a function of the object it is made on *)

Lemma updateOrder_spec (h : heap) (this : ref) (o : t) (r : Z) :
  nth_error h this = Some o ->
  updateOrder this r h =
    if (r =? order o)%Z
       && includes [ORDER.element; ORDER.id; ORDER.pseudoElement] r
    then (DuplicateViolation, h)
    else if (r <? order o)%Z then (OrderViolation, h)
    else (Normal tt, update this (mk (selector o) r) h).
Proof.
  intros Hthis. unfold updateOrder, bind, get_order, set_order, throw.
  rewrite Hthis.
  destruct ((r =? order o)%Z && includes _ r); [reflexivity|].
  destruct (r <? order o)%Z; [reflexivity|].
  now rewrite Hthis.
Qed.

Lemma includes_unique (k : FragmentKind) :
  includes [ORDER.element; ORDER.id; ORDER.pseudoElement] (rank k) = unique k.
Proof. destruct k; reflexivity. Qed.

(** Guards first, then the append: the three outcomes of a fragment call
    on the object [o] that [this] points to. *)
Lemma fragment_spec (k : FragmentKind) (h : heap) (this : ref) (o : t)
      (name : string) :
  nth_error h this = Some o ->
  fragment k this name h =
    if (rank k =? order o)%Z && unique k then (DuplicateViolation, h)
    else if (rank k <? order o)%Z then (OrderViolation, h)
    else (Normal this,
          update this (mk (selector o ++ fragment_text k name) (rank k)) h).
Proof.
  intros Hthis. rewrite <- includes_unique.
  assert (Hbody : forall txt,
    (updateOrder this (rank k) ;;
     s <- get_selector this ;;
     set_selector this (s ++ txt) ;;
     ret this) h =
    if (rank k =? order o)%Z
       && includes [ORDER.element; ORDER.id; ORDER.pseudoElement] (rank k)
    then (DuplicateViolation, h)
    else if (rank k <? order o)%Z then (OrderViolation, h)
    else (Normal this, update this (mk (selector o ++ txt) (rank k)) h)).
  { intros txt. unfold bind at 1. rewrite (updateOrder_spec h this o _ Hthis).
    destruct ((rank k =? order o)%Z && includes _ (rank k)); [reflexivity|].
    destruct (rank k <? order o)%Z; [reflexivity|].
    unfold bind, get_selector, set_selector, ret.
    rewrite (nth_error_update_eq h this _ o Hthis). simpl.
    rewrite (nth_error_update_eq h this _ o Hthis). simpl.
    now rewrite update_update. }
  destruct k; exact (Hbody _).
Qed.

Lemma fragment_throw_keeps_heap (k : FragmentKind) (h : heap) (this : ref)
      (name : string) (e : thrown) :
  fst (fragment k this name h) = Throw e -> snd (fragment k this name h) = h.
Proof.
  destruct (nth_error h this) as [o|] eqn:Hthis.
  - rewrite (fragment_spec k h this o name Hthis).
    destruct ((rank k =? order o)%Z && unique k); [reflexivity|].
    destruct (rank k <? order o)%Z; [reflexivity|]. discriminate.
  - intros _. destruct k; cbv [fragment element id class attr pseudoClass
      pseudoElement bind updateOrder get_order]; now rewrite Hthis.
Qed.

(** ** Chains of fragment calls *)

Lemma chain_admissible (this : ref) (fs : list (FragmentKind * string)) :
  forall (h : heap) (o : t),
    nth_error h this = Some o ->
    admissible (order o) (map fst fs) ->
    chain this fs h =
      (Normal this,
       update this (mk (selector o ++ texts fs) (final_rank (order o) fs)) h).
Proof.
  induction fs as [|[k name] fs IH]; intros h o Hthis Hadm; simpl.
  - unfold ret. rewrite append_nil_r. destruct o as [s r]; simpl.
    now rewrite (update_same h this _ Hthis).
  - simpl in Hadm. destruct Hadm as (Hle & Hdup & Hadm).
    unfold bind. rewrite (fragment_spec k h this o name Hthis), Hdup.
    replace (rank k <? order o)%Z with false by (symmetry; apply Z.ltb_ge; exact Hle).
    erewrite IH; [| eapply nth_error_update_eq; eassumption | exact Hadm ].
    simpl. now rewrite update_update, append_assoc.
Qed.

Lemma entry_spec (k : FragmentKind) (name : string) (h : heap) :
  entry k name h =
    (Normal (List.length h),
     (h ++ [mk (fragment_text k name) (rank k)])%list).
Proof.
  assert (Hnew : nth_error (h ++ [mk EmptyString ORDER.initial])%list (List.length h)
                 = Some (mk EmptyString ORDER.initial)) by apply nth_error_alloc.
  assert (Hgen : (r <- SelectorBuilder.new ;; fragment k r name) h =
    (Normal (List.length h),
     (h ++ [mk (fragment_text k name) (rank k)])%list)).
  { unfold bind at 1, SelectorBuilder.new.
    rewrite (fragment_spec k _ _ _ name Hnew).
    replace ((rank k =? order (mk EmptyString ORDER.initial))%Z && unique k) with false
      by (destruct k; reflexivity).
    replace (rank k <? order (mk EmptyString ORDER.initial))%Z with false
      by (destruct k; reflexivity).
    f_equal. apply update_alloc. }
  destruct k; exact Hgen.
Qed.

Lemma nondecreasing_head (r : Z) (rs : list Z) :
  nondecreasing (r :: rs) = true ->
  nondecreasing rs = true /\ forall r', In r' rs -> (r <= r')%Z.
Proof.
  revert r; induction rs as [|r1 rs IH]; intros r H.
  - split; [reflexivity | intros ? []].
  - change (((r <=? r1)%Z && nondecreasing (r1 :: rs)) = true) in H.
    apply andb_true_iff in H as [Hle Hnd]. apply Z.leb_le in Hle.
    split; [exact Hnd|].
    destruct (IH _ Hnd) as [_ Hall].
    intros r' [<- | Hin]; [exact Hle|].
    specialize (Hall _ Hin). lia.
Qed.

Lemma occurrences_cons (k k' : FragmentKind) (ks : list FragmentKind) :
  occurrences k (k' :: ks) =
    ((if kind_eqb k k' then 1 else 0) + occurrences k ks)%nat.
Proof. unfold occurrences; simpl. now destruct (kind_eqb k k'). Qed.

Lemma occurrences_in (k k' : FragmentKind) (ks : list FragmentKind) :
  In k' ks -> rank k' = rank k -> (1 <= occurrences k ks)%nat.
Proof.
  induction ks as [|k1 ks IH]; intros Hin Hr; [destruct Hin|].
  rewrite occurrences_cons. destruct Hin as [-> | Hin].
  - unfold kind_eqb. rewrite Hr, Z.eqb_refl. lia.
  - specialize (IH Hin Hr). lia.
Qed.

Lemma rank_inj (k k' : FragmentKind) : rank k = rank k' -> k = k'.
Proof. destruct k, k'; simpl; intros H; try reflexivity; discriminate H. Qed.

Lemma valid_admissible (ks : list FragmentKind) :
  forall cur : Z,
    (forall k, In k ks -> (cur <= rank k)%Z) ->
    (forall k, In k ks -> unique k = true -> rank k <> cur) ->
    nondecreasing (map rank ks) = true ->
    (forall k, unique k = true -> (occurrences k ks <= 1)%nat) ->
    admissible cur ks.
Proof.
  induction ks as [|k ks IH]; intros cur Hle Hne Hnd Hocc; simpl; [exact I|].
  simpl in Hnd. apply nondecreasing_head in Hnd as [Hnd Hall].
  split; [apply Hle; now left|]. split.
  - destruct (unique k) eqn:Hu; [|apply andb_false_r].
    rewrite andb_true_r. apply Z.eqb_neq. apply Hne; [now left | exact Hu].
  - apply IH.
    + intros k' Hin. apply Hall, in_map, Hin.
    + intros k' Hin Hu Heq.
      pose proof (Hocc k' Hu) as Hone. rewrite occurrences_cons in Hone.
      unfold kind_eqb in Hone. rewrite Heq, Z.eqb_refl in Hone.
      pose proof (occurrences_in k' k' ks Hin eq_refl). lia.
    + exact Hnd.
    + intros k' Hu. specialize (Hocc k' Hu).
      rewrite occurrences_cons in Hocc. lia.
Qed.

Lemma valid_ordering_admissible (ks : list FragmentKind) :
  valid_ordering ks -> admissible ORDER.initial ks.
Proof.
  intros (Hnd & He & Hi & Hp). apply valid_admissible.
  - intros k _. destruct k; discriminate.
  - intros k _ _. destruct k; discriminate.
  - exact Hnd.
  - intros k Hu. destruct k; try discriminate Hu; assumption.
Qed.

Lemma chain_normal_inv (this : ref) (fs : list (FragmentKind * string)) :
  forall (h : heap) (o : t) (r : ref) (h' : heap),
    nth_error h this = Some o ->
    chain this fs h = (Normal r, h') ->
    admissible (order o) (map fst fs) /\ r = this /\
    h' = update this (mk (selector o ++ texts fs) (final_rank (order o) fs)) h.
Proof.
  induction fs as [|[k name] fs IH]; intros h o r h' Hthis Hrun.
  - rewrite (chain_admissible this [] h o Hthis I) in Hrun.
    injection Hrun as <- <-. now repeat split.
  - simpl in Hrun. unfold bind in Hrun.
    rewrite (fragment_spec k h this o name Hthis) in Hrun.
    destruct ((rank k =? order o)%Z && unique k) eqn:Hdup; [discriminate|].
    destruct (rank k <? order o)%Z eqn:Hlt; [discriminate|].
    apply Z.ltb_ge in Hlt.
    eapply IH in Hrun; [| eapply nth_error_update_eq; eassumption].
    simpl in Hrun. destruct Hrun as (Hadm & -> & ->).
    simpl. repeat split; auto.
    now rewrite update_update, append_assoc.
Qed.

Lemma build_admissible (k : FragmentKind) (name : string)
      (fs : list (FragmentKind * string)) (h : heap) :
  admissible (rank k) (map fst fs) ->
  build (k, name) fs h =
    (Normal (List.length h),
     (h ++ [mk (texts ((k, name) :: fs)) (final_rank (rank k) fs)])%list).
Proof.
  intros Hadm. set (o := mk (fragment_text k name) (rank k)).
  assert (Ho : nth_error (h ++ [o])%list (List.length h) = Some o)
    by apply nth_error_alloc.
  unfold build, bind. simpl fst; simpl snd. rewrite entry_spec. fold o.
  rewrite (chain_admissible _ fs _ o Ho Hadm). simpl.
  now rewrite update_alloc.
Qed.

Lemma build_normal_inv (k : FragmentKind) (name : string)
      (fs : list (FragmentKind * string)) (h : heap) (r : ref) (h' : heap) :
  build (k, name) fs h = (Normal r, h') ->
  admissible (rank k) (map fst fs) /\ r = List.length h /\
  h' = (h ++ [mk (texts ((k, name) :: fs)) (final_rank (rank k) fs)])%list.
Proof.
  intros Hrun. set (o := mk (fragment_text k name) (rank k)).
  assert (Ho : nth_error (h ++ [o])%list (List.length h) = Some o)
    by apply nth_error_alloc.
  unfold build, bind in Hrun. simpl fst in Hrun; simpl snd in Hrun.
  rewrite entry_spec in Hrun. fold o in Hrun.
  apply (chain_normal_inv _ fs _ o _ _ Ho) in Hrun.
  destruct Hrun as (Hadm & -> & ->). simpl. repeat split; auto.
  now rewrite update_alloc.
Qed.

(** C1. For every sequence of fragment calls whose ranks never decrease
    and in which element, id and pseudo-element each occur at most once,
    building the selector through the facade completes normally, and
    [stringify()] returns the fragment texts concatenated in the order of
    the calls. *)
Theorem valid_ordering_builds_concatenation
        (f : FragmentKind * string) (fs : list (FragmentKind * string))
        (h : heap) :
  valid_ordering (map fst (f :: fs)) ->
  exists (r : ref) (h' : heap),
    build f fs h = (Normal r, h') /\
    stringify r h' = (Normal (texts (f :: fs)), h').
Proof.
  intros Hvalid. apply valid_ordering_admissible in Hvalid.
  destruct f as [k name]. destruct Hvalid as (_ & _ & Hadm).
  exists (List.length h). eexists. split.
  - apply build_admissible, Hadm.
  - unfold stringify, get_selector. now rewrite nth_error_alloc.
Qed.

Lemma valid_ordering_builds_concatenation_witness :
  valid_ordering (map fst [(Element, "a"); (Attribute, "target"); (PseudoClass, "focus")]) /\
  exists (r : ref) (h' : heap),
    build (Element, "a") [(Attribute, "target"); (PseudoClass, "focus")] [] = (Normal r, h') /\
    stringify r h' = (Normal "a[target]:focus", h').
Proof.
  assert (Hv : valid_ordering (map fst [(Element, "a"); (Attribute, "target"); (PseudoClass, "focus")])).
  { unfold valid_ordering. simpl. repeat split; auto. }
  split; [exact Hv|].
  exact (valid_ordering_builds_concatenation _ _ [] Hv).
Defined.

(** ** The guards of [updateOrder] *)

Lemma fragment_dangling (k : FragmentKind) (h : heap) (this : ref)
      (name : string) :
  nth_error h this = None ->
  fragment k this name h = (Throw TypeError, h).
Proof.
  intros Hthis. destruct k; cbv [fragment element id class attr pseudoClass
    pseudoElement bind updateOrder get_order]; now rewrite Hthis.
Qed.

Lemma fragment_normal_inv (k : FragmentKind) (h : heap) (this : ref)
      (name : string) (r : ref) (h' : heap) :
  fragment k this name h = (Normal r, h') ->
  r = this /\
  exists o, nth_error h this = Some o /\
            nth_error h' this
              = Some (mk (selector o ++ fragment_text k name) (rank k)).
Proof.
  intros Hrun. destruct (nth_error h this) as [o|] eqn:Hthis.
  - rewrite (fragment_spec k h this o name Hthis) in Hrun.
    destruct ((rank k =? order o)%Z && unique k); [discriminate|].
    destruct (rank k <? order o)%Z; [discriminate|].
    injection Hrun as <- <-. split; [reflexivity|].
    exists o. split; [reflexivity|]. eapply nth_error_update_eq, Hthis.
  - rewrite (fragment_dangling k h this name Hthis) in Hrun. discriminate.
Qed.

(** C2. A fragment call raises the order violation exactly when the rank
    of the new fragment is strictly below the rank recorded on the
    builder; what is thrown is the fixed message that names the required
    order; and [class] called on what a successful [attr] returned raises
    it. *)
Theorem order_violation_iff_rank_lower
        (k : FragmentKind) (h : heap) (this : ref) (name : string) :
  (fst (fragment k this name h) = OrderViolation <->
   exists o, nth_error h this = Some o /\ (rank k < order o)%Z) /\
  @OrderViolation ref =
    Throw (ThrownString
      ("Selector parts should be arranged in the following order: "
       ++ "element, id, class, attribute, pseudo-class, pseudo-element")) /\
  (forall (a c : string) (r : ref) (h' : heap),
      SelectorBuilder.attr this a h = (Normal r, h') ->
      fst (SelectorBuilder.class r c h') = OrderViolation).
Proof.
  split; [|split; [reflexivity|]].
  - destruct (nth_error h this) as [o|] eqn:Hthis.
    + rewrite (fragment_spec k h this o name Hthis). split.
      * intros Hthrow. exists o. split; [reflexivity|].
        destruct ((rank k =? order o)%Z && unique k); [discriminate|].
        destruct (rank k <? order o)%Z eqn:Hlt; [|discriminate].
        now apply Z.ltb_lt.
      * intros (o' & [= <-] & Hlt).
        replace ((rank k =? order o)%Z && unique k) with false.
        -- apply Z.ltb_lt in Hlt. now rewrite Hlt.
        -- symmetry. apply andb_false_iff. left. apply Z.eqb_neq. lia.
    + rewrite (fragment_dangling k h this name Hthis). split.
      * discriminate.
      * intros (o & Habs & _). discriminate.
  - intros a c r h' Hattr.
    apply (fragment_normal_inv Attribute) in Hattr.
    destruct Hattr as (-> & o & _ & Hafter).
    change (SelectorBuilder.class this c h') with (fragment Class this c h').
    now rewrite (fragment_spec Class h' this _ c Hafter).
Qed.

Lemma order_violation_iff_rank_lower_witness :
  fst (fragment Class 0%nat "b" [mk "[a]" ORDER.attribute]) = OrderViolation.
Proof.
  refine (proj2 (proj1 (order_violation_iff_rank_lower
                          Class [mk "[a]" ORDER.attribute] 0%nat "b")) _).
  exists (mk "[a]" ORDER.attribute). split; reflexivity.
Defined.

(** C8. A fragment call that raises the order violation or the duplicate
    violation leaves the store as it found it: the accumulated string and
    the recorded rank of the builder are what they were before the call. *)
Theorem failed_append_changes_nothing
        (k : FragmentKind) (h : heap) (this : ref) (name : string) :
  fst (fragment k this name h) = OrderViolation \/
  fst (fragment k this name h) = DuplicateViolation ->
  snd (fragment k this name h) = h /\
  get_selector this (snd (fragment k this name h)) = get_selector this h /\
  get_order this (snd (fragment k this name h)) = get_order this h.
Proof.
  intros Hthrow.
  assert (Hsame : snd (fragment k this name h) = h)
    by (destruct Hthrow as [H|H]; eapply fragment_throw_keeps_heap, H).
  now rewrite Hsame.
Qed.

Lemma failed_append_changes_nothing_witness :
  snd (fragment Id 0%nat "b" [mk "#a" ORDER.id]) = [mk "#a" ORDER.id] /\
  get_selector 0%nat (snd (fragment Id 0%nat "b" [mk "#a" ORDER.id]))
    = get_selector 0%nat [mk "#a" ORDER.id] /\
  get_order 0%nat (snd (fragment Id 0%nat "b" [mk "#a" ORDER.id]))
    = get_order 0%nat [mk "#a" ORDER.id].
Proof.
  apply (failed_append_changes_nothing Id [mk "#a" ORDER.id] 0%nat "b").
  right. reflexivity.
Defined.

(** ** Repeatable kinds *)

Lemma chain_class_never_duplicate (names : list string) :
  forall (this : ref) (h : heap),
    fst (chain this (map (pair Class) names) h) <> DuplicateViolation.
Proof.
  induction names as [|n names IH]; intros this h; [simpl; discriminate|].
  cbn [chain map]. unfold bind.
  destruct (nth_error h this) as [o|] eqn:Hthis.
  - rewrite (fragment_spec Class h this o n Hthis).
    simpl unique. rewrite andb_false_r.
    destruct (rank Class <? order o)%Z; [discriminate | apply IH].
  - rewrite (fragment_dangling Class h this n Hthis). discriminate.
Qed.

Lemma admissible_classes (cur : Z) (names : list string) :
  (cur <= ORDER.class)%Z ->
  admissible cur (map fst (map (pair Class) names)).
Proof.
  revert cur; induction names as [|n names IH]; intros cur Hle; simpl; [exact I|].
  split; [exact Hle|]. split; [apply andb_false_r|].
  apply IH. apply Z.le_refl.
Qed.

(** C5. Consecutive [class] calls on one builder never raise the
    duplicate violation, however many there are; on a builder whose
    recorded rank is at most that of class they all succeed and append
    their texts; and [id('main').class('container').class('editable')]
    renders as [#main.container.editable]. *)
Theorem class_is_repeatable
        (names : list string) (this : ref) (h : heap) :
  fst (chain this (map (pair Class) names) h) <> DuplicateViolation /\
  (forall o, nth_error h this = Some o -> (order o <= ORDER.class)%Z ->
     exists h',
       chain this (map (pair Class) names) h = (Normal this, h') /\
       stringify this h'
         = (Normal (selector o ++ texts (map (pair Class) names)), h')) /\
  fst ((r <- cssSelectorBuilder.id "main" ;;
        r <- SelectorBuilder.class r "container" ;;
        r <- SelectorBuilder.class r "editable" ;;
        stringify r) h) = Normal "#main.container.editable".
Proof.
  split; [apply chain_class_never_duplicate|]. split.
  - intros o Hthis Hle. eexists. split.
    + apply (chain_admissible this _ h o Hthis), admissible_classes, Hle.
    + unfold stringify, get_selector.
      now rewrite (nth_error_update_eq h this _ o Hthis).
  - pose proof (build_admissible Id "main"
                  [(Class, "container"); (Class, "editable")] h) as Hb.
    unfold build in Hb. simpl chain in Hb. simpl fst in Hb. simpl snd in Hb.
    unfold entry, fragment in Hb.
    assert (Hadm : admissible (rank Id)
              (map fst [(Class, "container"); (Class, "editable")]))
      by (simpl; repeat split; discriminate).
    specialize (Hb Hadm). revert Hb. unfold bind, ret.
    destruct (cssSelectorBuilder.id "main" h) as [[r1|e1] h1]; [|discriminate].
    destruct (SelectorBuilder.class r1 "container" h1) as [[r2|e2] h2]; [|discriminate].
    destruct (SelectorBuilder.class r2 "editable" h2) as [[r3|e3] h3]; [|discriminate].
    intros [= -> ->]. unfold stringify, get_selector.
    now rewrite nth_error_alloc.
Qed.

Lemma class_is_repeatable_witness :
  exists h',
    chain 0%nat (map (pair Class) ["container"; "editable"]) [mk "#main" ORDER.id]
      = (Normal 0%nat, h') /\
    stringify 0%nat h' = (Normal "#main.container.editable", h').
Proof.
  refine (proj1 (proj2 (class_is_repeatable ["container"; "editable"] 0%nat
                          [mk "#main" ORDER.id])) (mk "#main" ORDER.id) eq_refl _).
  discriminate.
Defined.

(** ** Unique kinds *)

Lemma last_cons_default {A} (x : A) (xs : list A) (d d' : A) :
  last (x :: xs) d = last (x :: xs) d'.
Proof.
  revert x; induction xs as [|y xs IH]; intros x; [reflexivity|].
  change (last (y :: xs) d = last (y :: xs) d'). apply IH.
Qed.

Lemma final_rank_last (k : FragmentKind) (name : string)
      (fs : list (FragmentKind * string)) :
  final_rank (rank k) fs = rank (last_kind (k, name) fs).
Proof.
  unfold final_rank, last_kind. revert k name.
  induction fs as [|[k1 n1] fs IH]; intros k name; [reflexivity|].
  simpl fold_left. rewrite (IH k1 n1).
  destruct fs as [|f fs]; [reflexivity|].
  change (last ((k1, n1) :: f :: fs) (k, name)) with (last (f :: fs) (k, name)).
  now rewrite (last_cons_default f fs (k1, n1) (k, name)).
Qed.

Lemma admissible_bounds (fs : list (FragmentKind * string)) :
  forall cur : Z,
    admissible cur (map fst fs) ->
    (cur <= final_rank cur fs)%Z /\
    forall k, In k (map fst fs) -> (cur <= rank k <= final_rank cur fs)%Z.
Proof.
  induction fs as [|[k1 n1] fs IH]; intros cur Hadm.
  - split; [apply Z.le_refl | intros k []].
  - simpl in Hadm. destruct Hadm as (Hle & _ & Hadm).
    destruct (IH _ Hadm) as [Hfin Hall].
    change (final_rank cur ((k1, n1) :: fs)) with (final_rank (rank k1) fs).
    split; [lia|].
    intros k [<- | Hin]; [simpl; lia|].
    specialize (Hall k Hin). lia.
Qed.

Lemma admissible_no_repeat (ks : list FragmentKind) (cur : Z)
      (k : FragmentKind) :
  admissible cur ks -> unique k = true -> rank k = cur -> ~ In k ks.
Proof.
  intros Hadm Hu Hr Hin. destruct ks as [|k1 ks]; [destruct Hin|].
  destruct Hadm as (Hle & Hguard & Hadm).
  assert (Hk1 : rank k1 = cur).
  { destruct Hin as [-> | Hin]; [exact Hr|].
    destruct (in_map_iff fst (map (fun k => (k, EmptyString)) ks) k) as [_ Hex].
    assert (Hks : map fst (map (fun k => (k, EmptyString)) ks) = ks).
    { rewrite map_map. simpl. apply map_id. }
    rewrite <- Hks in Hadm, Hin.
    destruct (admissible_bounds _ _ Hadm) as [_ Hall].
    specialize (Hall k Hin). lia. }
  assert (k1 = k) by (apply rank_inj; congruence). subst k1.
  rewrite Hk1, Z.eqb_refl, Hu in Hguard. discriminate.
Qed.

Lemma occurrences_not_in (k : FragmentKind) (ks : list FragmentKind) :
  ~ In k ks -> occurrences k ks = 0%nat.
Proof.
  induction ks as [|k1 ks IH]; intros Hnin; [reflexivity|].
  rewrite occurrences_cons, IH by (intros H; apply Hnin; now right).
  unfold kind_eqb. destruct (rank k =? rank k1)%Z eqn:He; [|reflexivity].
  apply Z.eqb_eq, rank_inj in He. subst k1. exfalso. apply Hnin. now left.
Qed.

Lemma admissible_occurrences (ks : list FragmentKind) :
  forall (cur : Z) (k : FragmentKind),
    admissible cur ks -> unique k = true -> (occurrences k ks <= 1)%nat.
Proof.
  induction ks as [|k1 ks IH]; intros cur k Hadm Hu; [apply Nat.le_0_l|].
  destruct Hadm as (_ & _ & Hadm). rewrite occurrences_cons.
  unfold kind_eqb. destruct (rank k =? rank k1)%Z eqn:He.
  - apply Z.eqb_eq in He.
    rewrite (occurrences_not_in k ks); [apply Nat.le_refl|].
    eapply admissible_no_repeat; eauto.
  - simpl. eapply IH; eauto.
Qed.

Lemma admissible_from_initial (k : FragmentKind) (ks : list FragmentKind) :
  admissible (rank k) ks -> admissible ORDER.initial (k :: ks).
Proof.
  intros Hadm. simpl. split; [|split; [|exact Hadm]].
  - destruct k; discriminate.
  - destruct k; reflexivity.
Qed.

(** C3 (as the code has it). On a selector built through the facade, a
    further element, id or pseudo-element call of a kind that was already
    appended is always rejected: with the duplicate violation when that
    kind is the one appended last, with the order violation when a
    fragment of higher rank was appended since (which cannot happen for
    pseudo-element, the highest rank).  A successful build therefore
    holds each of the three kinds at most once, and [id] called on what a
    successful [id] returned raises the duplicate violation. *)
Theorem repeat_of_unique_kind_is_rejected
        (f : FragmentKind * string) (fs : list (FragmentKind * string))
        (h : heap) (r : ref) (h' : heap) :
  build f fs h = (Normal r, h') ->
  (forall (k : FragmentKind) (name : string),
      unique k = true -> In k (map fst (f :: fs)) ->
      fst (fragment k r name h') =
        if kind_eqb k (last_kind f fs) then DuplicateViolation
        else OrderViolation) /\
  (forall name : string,
      In PseudoElement (map fst (f :: fs)) ->
      fst (fragment PseudoElement r name h') = DuplicateViolation) /\
  (forall k : FragmentKind,
      unique k = true -> (occurrences k (map fst (f :: fs)) <= 1)%nat) /\
  (forall (this : ref) (a b : string) (h0 : heap) (r1 : ref) (h1 : heap),
      SelectorBuilder.id this a h0 = (Normal r1, h1) ->
      fst (SelectorBuilder.id r1 b h1) = DuplicateViolation).
Proof.
  intros Hrun. destruct f as [k0 n0].
  apply build_normal_inv in Hrun. destruct Hrun as (Hadm & -> & ->).
  destruct (admissible_bounds _ _ Hadm) as [Hfin Hall].
  assert (Hcall : forall k name, unique k = true ->
            In k (map fst ((k0, n0) :: fs)) ->
            fst (fragment k (List.length h) name
                   (h ++ [mk (texts ((k0, n0) :: fs))
                             (final_rank (rank k0) fs)])%list) =
            if kind_eqb k (last_kind (k0, n0) fs) then DuplicateViolation
            else OrderViolation).
  { intros k name Hu Hin.
    rewrite (fragment_spec k _ _ _ name (nth_error_alloc h _)).
    simpl order. rewrite Hu, andb_true_r. unfold kind_eqb.
    rewrite <- (final_rank_last k0 n0 fs).
    destruct (rank k =? final_rank (rank k0) fs)%Z eqn:He; [reflexivity|].
    apply Z.eqb_neq in He.
    assert (Hlt : (rank k < final_rank (rank k0) fs)%Z).
    { destruct Hin as [Hk | Hin]; [simpl in Hk; subst k; lia|].
      specialize (Hall k Hin). lia. }
    apply Z.ltb_lt in Hlt. now rewrite Hlt. }
  split; [exact Hcall|]. split; [|split].
  - intros name Hin. rewrite (Hcall PseudoElement name eq_refl Hin).
    replace (kind_eqb PseudoElement (last_kind (k0, n0) fs)) with true;
      [reflexivity|].
    symmetry. apply Z.eqb_eq. rewrite <- (final_rank_last k0 n0 fs).
    assert (rank (last_kind (k0, n0) fs) <= 6)%Z
      by (destruct (last_kind (k0, n0) fs); discriminate).
    rewrite <- (final_rank_last k0 n0 fs) in H.
    destruct Hin as [Heq | Hin].
    + simpl in Heq. subst k0. change (rank PseudoElement) with 6%Z in *. lia.
    + specialize (Hall _ Hin). change (rank PseudoElement) with 6%Z in *. lia.
  - intros k Hu.
    apply (admissible_occurrences _ ORDER.initial k); [|exact Hu].
    apply admissible_from_initial, Hadm.
  - intros this a b h0 r1 h1 Hid.
    apply (fragment_normal_inv Id) in Hid.
    destruct Hid as (-> & o & _ & Hafter).
    change (SelectorBuilder.id this b h1) with (fragment Id this b h1).
    now rewrite (fragment_spec Id h1 this _ b Hafter).
Qed.

Lemma repeat_of_unique_kind_is_rejected_witness :
  fst (fragment Element 0%nat "p" [mk "div#main" ORDER.id]) = OrderViolation /\
  fst (fragment Id 0%nat "x" [mk "div#main" ORDER.id]) = DuplicateViolation.
Proof.
  assert (Hb : build (Element, "div") [(Id, "main")] []
               = (Normal 0%nat, [mk "div#main" ORDER.id])) by reflexivity.
  split.
  - exact (proj1 (repeat_of_unique_kind_is_rejected _ _ _ _ _ Hb)
             Element "p" eq_refl (or_introl eq_refl)).
  - exact (proj1 (repeat_of_unique_kind_is_rejected _ _ _ _ _ Hb)
             Id "x" eq_refl (or_intror (or_introl eq_refl))).
Defined.

(** C3, as stated, fails: [element('div').id('main').element('p')]
    appends a second element to a selector that already holds one, and
    what is raised is the order violation, not the duplicate violation. *)
Lemma second_element_after_id_is_OrderViolation :
  build (Element, "div") [(Id, "main")] []
    = (Normal 0%nat, [mk "div#main" ORDER.id]) /\
  fst (SelectorBuilder.element 0%nat "p" [mk "div#main" ORDER.id])
    = OrderViolation /\
  ~ every_repeat_is_DuplicateViolation.
Proof.
  split; [reflexivity|]. split; [reflexivity|].
  intros Hall.
  specialize (Hall (Element, "div") [(Id, "main")] [] 0%nat
                   [mk "div#main" ORDER.id] Element "p"
                   eq_refl eq_refl (or_introl eq_refl)).
  discriminate Hall.
Qed.

(** ** [combine] *)

Lemma stringify_inv (l : ref) (h : heap) (s : string) :
  fst (stringify l h) = Normal s ->
  exists o, nth_error h l = Some o /\ selector o = s.
Proof.
  unfold stringify, get_selector.
  destruct (nth_error h l) as [o|]; [|discriminate].
  intros [= <-]. now exists o.
Qed.

Lemma combine_spec (h : heap) (this l r : ref) (c : string) (o ol or_ : t) :
  nth_error h this = Some o ->
  nth_error h l = Some ol ->
  nth_error h r = Some or_ ->
  SelectorBuilder.combine this l c r h =
    (Normal this,
     update this (mk (selector ol ++ " " ++ c ++ " " ++ selector or_) (order o)) h).
Proof.
  intros Hthis Hl Hr.
  unfold SelectorBuilder.combine, bind, stringify, get_selector, set_selector, ret.
  now rewrite Hl, Hr, Hthis.
Qed.

Lemma facade_combine_spec (h : heap) (l r : ref) (c : string) (ol or_ : t) :
  nth_error h l = Some ol ->
  nth_error h r = Some or_ ->
  cssSelectorBuilder.combine l c r h =
    (Normal (List.length h),
     (h ++ [mk (selector ol ++ " " ++ c ++ " " ++ selector or_) ORDER.initial])%list).
Proof.
  intros Hl Hr. unfold cssSelectorBuilder.combine, bind at 1, SelectorBuilder.new.
  rewrite (combine_spec _ _ l r c _ ol or_ (nth_error_alloc h _)
             (nth_error_alloc_old h _ l ol Hl) (nth_error_alloc_old h _ r or_ Hr)).
  now rewrite update_alloc.
Qed.

(** C4. For all built selectors [left] and [right] and every combinator
    token, the facade's [combine] completes normally with a selector
    whose [stringify()] is [stringify(left) + ' ' + token + ' ' +
    stringify(right)], the two inputs being left as they were; and
    combining [div#main] with [table#data] by [+] renders as
    [div#main + table#data]. *)
Theorem combine_renders_left_token_right
        (h : heap) (left right : ref) (token sl sr : string) :
  fst (stringify left h) = Normal sl ->
  fst (stringify right h) = Normal sr ->
  (exists (s : ref) (h' : heap),
      cssSelectorBuilder.combine left token right h = (Normal s, h') /\
      stringify s h' = (Normal (sl ++ " " ++ token ++ " " ++ sr), h') /\
      fst (stringify left h') = Normal sl /\
      fst (stringify right h') = Normal sr) /\
  fst ((l <- (e <- cssSelectorBuilder.element "div" ;; SelectorBuilder.id e "main") ;;
        r <- (e <- cssSelectorBuilder.element "table" ;; SelectorBuilder.id e "data") ;;
        s <- cssSelectorBuilder.combine l "+" r ;;
        stringify s) []) = Normal "div#main + table#data".
Proof.
  intros Hl Hr. split; [|reflexivity].
  apply stringify_inv in Hl as (ol & Hl & <-).
  apply stringify_inv in Hr as (or_ & Hr & <-).
  exists (List.length h). eexists. split; [|split; [|split]].
  - apply (facade_combine_spec h left right token ol or_ Hl Hr).
  - unfold stringify, get_selector. now rewrite nth_error_alloc.
  - unfold stringify, get_selector.
    now rewrite (nth_error_alloc_old h _ left ol Hl).
  - unfold stringify, get_selector.
    now rewrite (nth_error_alloc_old h _ right or_ Hr).
Qed.

Lemma combine_renders_left_token_right_witness :
  exists (s : ref) (h' : heap),
    cssSelectorBuilder.combine 0%nat ">" 1%nat
      [mk "ul.nav" ORDER.class; mk "li" ORDER.element] = (Normal s, h') /\
    stringify s h' = (Normal "ul.nav > li", h') /\
    fst (stringify 0%nat h') = Normal "ul.nav" /\
    fst (stringify 1%nat h') = Normal "li".
Proof.
  exact (proj1 (combine_renders_left_token_right
                  [mk "ul.nav" ORDER.class; mk "li" ORDER.element]
                  0%nat 1%nat ">" "ul.nav" "li" eq_refl eq_refl)).
Defined.

(** C6. The selector returned by the facade's [combine] has recorded rank
    [initial], whatever its two inputs hold, so that a fragment call of
    any kind made on it next completes normally (neither violation is
    raised) and appends its text to the combined rendering. *)
Theorem combined_selector_accepts_any_fragment
        (h : heap) (left right : ref) (token sl sr : string)
        (k : FragmentKind) (name : string) :
  fst (stringify left h) = Normal sl ->
  fst (stringify right h) = Normal sr ->
  exists (s : ref) (h1 h2 : heap),
    cssSelectorBuilder.combine left token right h = (Normal s, h1) /\
    get_order s h1 = (Normal ORDER.initial, h1) /\
    fragment k s name h1 = (Normal s, h2) /\
    stringify s h2
      = (Normal ((sl ++ " " ++ token ++ " " ++ sr) ++ fragment_text k name), h2).
Proof.
  intros Hl Hr.
  apply stringify_inv in Hl as (ol & Hl & <-).
  apply stringify_inv in Hr as (or_ & Hr & <-).
  set (o := mk (selector ol ++ " " ++ token ++ " " ++ selector or_) ORDER.initial).
  assert (Ho : nth_error (h ++ [o])%list (List.length h) = Some o)
    by apply nth_error_alloc.
  exists (List.length h), (h ++ [o])%list. eexists. split; [|split; [|split]].
  - apply (facade_combine_spec h left right token ol or_ Hl Hr).
  - unfold get_order. now rewrite Ho.
  - rewrite (fragment_spec k _ _ o name Ho).
    replace ((rank k =? order o)%Z && unique k) with false
      by (destruct k; reflexivity).
    replace (rank k <? order o)%Z with false by (destruct k; reflexivity).
    reflexivity.
  - unfold stringify, get_selector.
    now rewrite (nth_error_update_eq _ _ _ o Ho).
Qed.

Lemma combined_selector_accepts_any_fragment_witness :
  exists (s : ref) (h1 h2 : heap),
    cssSelectorBuilder.combine 0%nat "~" 1%nat
      [mk "p::first-line" ORDER.pseudoElement; mk "a#x" ORDER.id] = (Normal s, h1) /\
    get_order s h1 = (Normal ORDER.initial, h1) /\
    fragment Element s "b" h1 = (Normal s, h2) /\
    stringify s h2 = (Normal "p::first-line ~ a#xb", h2).
Proof.
  exact (combined_selector_accepts_any_fragment
           [mk "p::first-line" ORDER.pseudoElement; mk "a#x" ORDER.id]
           0%nat 1%nat "~" "p::first-line" "a#x" Element "b" eq_refl eq_refl).
Defined.

(** C10 (as the code has it). [combine] called as a method on a builder
    replaces its accumulated string by the combined rendering and leaves
    its recorded rank as it was.  A later fragment call of lower rank
    raises the order violation; one of equal rank raises the duplicate
    violation when the kind is element, id or pseudo-element, and
    completes normally when it is class, attribute or pseudo-class; one
    of higher rank completes normally. *)
Theorem chained_combine_keeps_recorded_rank
        (h : heap) (this left right : ref) (token : string) (o ol or_ : t) :
  nth_error h this = Some o ->
  nth_error h left = Some ol ->
  nth_error h right = Some or_ ->
  exists h' : heap,
    SelectorBuilder.combine this left token right h = (Normal this, h') /\
    stringify this h'
      = (Normal (selector ol ++ " " ++ token ++ " " ++ selector or_), h') /\
    get_order this h' = (Normal (order o), h') /\
    forall (k : FragmentKind) (name : string),
      ((rank k < order o)%Z ->
         fst (fragment k this name h') = OrderViolation) /\
      (rank k = order o -> unique k = true ->
         fst (fragment k this name h') = DuplicateViolation) /\
      (rank k = order o -> unique k = false ->
         fst (fragment k this name h') = Normal this) /\
      ((order o < rank k)%Z ->
         fst (fragment k this name h') = Normal this).
Proof.
  intros Hthis Hl Hr.
  set (o' := mk (selector ol ++ " " ++ token ++ " " ++ selector or_) (order o)).
  assert (Ho' : nth_error (update this o' h) this = Some o')
    by (eapply nth_error_update_eq, Hthis).
  exists (update this o' h). split; [|split; [|split]].
  - apply (combine_spec h this left right token o ol or_ Hthis Hl Hr).
  - unfold stringify, get_selector. now rewrite Ho'.
  - unfold get_order. now rewrite Ho'.
  - intros k name. rewrite (fragment_spec k _ _ o' name Ho'). simpl order.
    repeat split.
    + intros Hlt.
      replace (rank k =? order o)%Z with false by (symmetry; apply Z.eqb_neq; lia).
      apply Z.ltb_lt in Hlt. now rewrite Hlt.
    + intros -> ->. now rewrite Z.eqb_refl.
    + intros -> ->. now rewrite andb_false_r, Z.ltb_irrefl.
    + intros Hgt.
      replace (rank k =? order o)%Z with false by (symmetry; apply Z.eqb_neq; lia).
      replace (rank k <? order o)%Z with false by (symmetry; apply Z.ltb_ge; lia).
      reflexivity.
Qed.

Lemma chained_combine_keeps_recorded_rank_witness :
  exists h' : heap,
    SelectorBuilder.combine 0%nat 1%nat "+" 2%nat
      [mk "div" ORDER.element; mk "a" ORDER.element; mk "b" ORDER.element]
      = (Normal 0%nat, h') /\
    stringify 0%nat h' = (Normal "a + b", h') /\
    get_order 0%nat h' = (Normal ORDER.element, h') /\
    fst (fragment Element 0%nat "p" h') = DuplicateViolation.
Proof.
  destruct (chained_combine_keeps_recorded_rank
              [mk "div" ORDER.element; mk "a" ORDER.element; mk "b" ORDER.element]
              0%nat 1%nat 2%nat "+" _ _ _ eq_refl eq_refl eq_refl)
    as (h' & Hc & Hs & Ho & Hk).
  exists h'. repeat split; try assumption.
  exact (proj1 (proj2 (Hk Element "p")) eq_refl eq_refl).
Defined.

(** C10, as stated, fails: after [class('a')], a chained [combine] and
    then [class('b')], the last call has the rank that is recorded and
    raises nothing. *)
Lemma class_after_chained_combine_succeeds :
  fst ((x <- cssSelectorBuilder.element "x" ;;
        y <- cssSelectorBuilder.element "y" ;;
        s <- cssSelectorBuilder.class "a" ;;
        s <- SelectorBuilder.combine s x "+" y ;;
        s <- SelectorBuilder.class s "b" ;;
        stringify s) []) = Normal "x + y.b" /\
  ~ equal_or_lower_rank_always_raises.
Proof.
  split; [reflexivity|]. intros Hall.
  specialize (Hall [mk "x" ORDER.element; mk "y" ORDER.element; mk ".a" ORDER.class]
                   2%nat 0%nat 1%nat "+" (mk ".a" ORDER.class) _ Class "b"
                   eq_refl eq_refl).
  destruct Hall as [H | H]; [discriminate | discriminate H | discriminate H].
Qed.

(** ** Rectangle *)

Lemma getArea_after_new {number : Type} (times : number -> number -> number)
      (w : Rectangle.world) (r : ref) (o : Rectangle.instance)
      (width height : number) :
  nth_error (Rectangle.instances w) r = Some o ->
  fst ((_ <- Rectangle.new width height ;; Rectangle.getArea times r) w)
    = Normal (times width height).
Proof.
  intros Hr. unfold bind, Rectangle.new, Rectangle.getArea, Rectangle.call.
  simpl. rewrite (nth_error_alloc_old _ _ r o Hr).
  now rewrite nth_error_alloc.
Qed.

(** C9. The constructor reassigns the shared [getArea] to a closure over
    the instance under construction: after [a = new Rectangle(w1, h1)]
    and [b = new Rectangle(w2, h2)], both [a.getArea()] and [b.getArea()]
    return [w2 * h2]; more generally a construction changes what
    [getArea] returns on every instance that existed before it.  With
    10 by 20 and then 3 by 4, [a.getArea()] is 200 before [b] is
    constructed and 12 after. *)
Theorem getArea_is_area_of_latest_Rectangle
        {number : Type} (times : number -> number -> number)
        (w : Rectangle.world) (w1 h1 w2 h2 : number) :
  fst ((a <- Rectangle.new w1 h1 ;;
        b <- Rectangle.new w2 h2 ;;
        area_a <- Rectangle.getArea times a ;;
        area_b <- Rectangle.getArea times b ;;
        ret (area_a, area_b)) w) = Normal (times w2 h2, times w2 h2) /\
  (forall (r : ref) (o : Rectangle.instance),
      nth_error (Rectangle.instances w) r = Some o ->
      fst ((_ <- Rectangle.new w2 h2 ;; Rectangle.getArea times r) w)
        = Normal (times w2 h2)) /\
  fst ((a <- Rectangle.new 10 20 ;;
        before <- Rectangle.getArea Z.mul a ;;
        b <- Rectangle.new 3 4 ;;
        after <- Rectangle.getArea Z.mul a ;;
        ret (before, after)) (Rectangle.mkWorld [] None)) = Normal (200, 12)%Z.
Proof.
  split; [|split; [|reflexivity]].
  - unfold bind, Rectangle.new, Rectangle.getArea, Rectangle.call, ret.
    cbn [Rectangle.instances Rectangle.prototype_getArea
         Rectangle.captured_this fst snd].
    rewrite (nth_error_alloc_old _ _ _ _
               (nth_error_alloc (Rectangle.instances w)
                                (Rectangle.mkInstance w1 h1))).
    rewrite nth_error_alloc. cbn.
    now rewrite nth_error_alloc.
  - intros r o Hr. apply (getArea_after_new times w r o w2 h2 Hr).
Qed.

Lemma getArea_is_area_of_latest_Rectangle_witness :
  fst ((_ <- Rectangle.new 3 4 ;; Rectangle.getArea Z.mul 0%nat)
         (Rectangle.mkWorld [Rectangle.mkInstance 10 20]
                            (Some (Rectangle.mkArrow 0%nat))))
    = Normal 12%Z.
Proof.
  exact (proj1 (proj2 (getArea_is_area_of_latest_Rectangle Z.mul
           (Rectangle.mkWorld [Rectangle.mkInstance 10 20]
                              (Some (Rectangle.mkArrow 0%nat))) 1 1 3 4))
           0%nat (Rectangle.mkInstance 10 20) eq_refl).
Defined.

Import JSON.

(** ** JSON texts *)

Lemma length_append (a b : string) :
  String.length (a ++ b) = (String.length a + String.length b)%nat.
Proof. induction a as [|x a IH]; simpl; [reflexivity | now rewrite IH]. Qed.

(** One character of a string, escaped and read back. *)
Lemma parse_chars_escape_char (c : ascii) (tail : string) :
  parse_chars (escape_char c ++ tail) = push c (parse_chars tail).
Proof.
  destruct c as [[|] [|] [|] [|] [|] [|] [|] [|]]; reflexivity.
Qed.

Lemma parse_chars_escape (s tail : string) :
  parse_chars (escape s ++ String quotation_mark tail) = Some (s, tail).
Proof.
  induction s as [|c s IH]; [reflexivity|].
  cbn [escape]. rewrite append_assoc, parse_chars_escape_char, IH. reflexivity.
Qed.

Lemma parse_chars_quote (s tail : string) :
  QuoteJSONString s ++ tail
    = String quotation_mark (escape s ++ String quotation_mark tail).
Proof. unfold QuoteJSONString. simpl. now rewrite append_assoc. Qed.

(** ** Numbers *)

Lemma span_digits_uint (d : Decimal.uint) (tail : string) :
  delimited tail ->
  span_digits (NilEmpty.string_of_uint d ++ tail)
    = (NilEmpty.string_of_uint d, tail).
Proof.
  intros (s & [-> | ->]); induction d; cbn; rewrite ?IHd; reflexivity.
Qed.

Lemma to_uint_normal (m : N) :
  Decimal.unorm (N.to_uint m) = N.to_uint m.
Proof.
  rewrite <- (DecimalN.Unsigned.to_of (N.to_uint m)).
  now rewrite DecimalN.Unsigned.of_to.
Qed.

Lemma unorm_not_Nil (d : Decimal.uint) : Decimal.unorm d <> Decimal.Nil.
Proof.
  unfold Decimal.unorm. destruct (Decimal.nzhead d); discriminate.
Qed.

Lemma unorm_leading_zero (d d' : Decimal.uint) :
  Decimal.unorm d = Decimal.D0 d' -> d' = Decimal.Nil.
Proof.
  unfold Decimal.unorm. destruct (Decimal.nzhead d) eqn:Hnz;
    try discriminate.
  - now intros [= <-].
  - now destruct (nzhead_nonzero d u).
Qed.

Lemma parse_digits_to_uint (m : N) (tail : string) :
  (m <= MAX_SAFE_INTEGER)%N ->
  delimited tail ->
  parse_digits (NilEmpty.string_of_uint (N.to_uint m) ++ tail) = Some (m, tail).
Proof.
  intros Hsafe Htail. unfold parse_digits.
  rewrite (span_digits_uint _ _ Htail).
  pose proof (to_uint_normal m) as Hnorm.
  pose proof (unorm_not_Nil (N.to_uint m)) as Hnil. rewrite Hnorm in Hnil.
  assert (Hcont : match tail with
                  | String c _ => ((c =? ".") || (c =? "e") || (c =? "E"))%char
                  | EmptyString => false
                  end = false)
    by (destruct Htail as (s & [-> | ->]); reflexivity).
  rewrite Hcont, orb_false_r.
  assert (Hlz : match NilEmpty.string_of_uint (N.to_uint m) with
                | String c (String _ _) => (c =? "0")%char
                | _ => false
                end = false).
  { destruct (N.to_uint m) as [|d'|d'|d'|d'|d'|d'|d'|d'|d'|d'] eqn:Hd;
      try reflexivity; try (cbn; now destruct (NilEmpty.string_of_uint d')).
    apply unorm_leading_zero in Hnorm. now subst d'. }
  rewrite Hlz.
  destruct (NilEmpty.string_of_uint (N.to_uint m)) as [|c ds] eqn:Hds.
  - destruct (N.to_uint m); try discriminate Hds. now destruct Hnil.
  - rewrite <- Hds, NilEmpty.usu, DecimalN.Unsigned.of_to.
    apply N.leb_le in Hsafe. now rewrite Hsafe.
Qed.

Lemma Number_toString_head (n : Z) :
  exists c s, Number_toString n = String c s /\
              is_ws c = false /\
              (c =? quotation_mark)%char = false /\
              (c =? "n")%char = false /\
              (c =? "t")%char = false /\
              (c =? "f")%char = false.
Proof.
  unfold Number_toString. destruct (n <? 0)%Z.
  - eexists _, _. split; [reflexivity|]. now repeat split.
  - pose proof (unorm_not_Nil (N.to_uint (Z.abs_N n))) as Hnil.
    rewrite to_uint_normal in Hnil.
    destruct (N.to_uint (Z.abs_N n)); try (now destruct Hnil);
      (eexists _, _; split; [reflexivity|]; now repeat split).
Qed.

Lemma parse_number_toString (n : Z) (tail : string) :
  (Z.abs n <= Z.of_N MAX_SAFE_INTEGER)%Z ->
  delimited tail ->
  parse_number (Number_toString n ++ tail) = Some (n, tail).
Proof.
  intros Hsafe Htail.
  assert (Hm : (Z.abs_N n <= MAX_SAFE_INTEGER)%N) by lia.
  pose proof (parse_digits_to_uint _ _ Hm Htail) as Hdigits.
  unfold Number_toString. destruct (n <? 0)%Z eqn:Hneg.
  - apply Z.ltb_lt in Hneg. cbn [append]. unfold parse_number.
    cbn. rewrite Hdigits.
    destruct (Z.abs_N n) eqn:Habs; [lia|].
    f_equal. f_equal. lia.
  - apply Z.ltb_ge in Hneg. unfold parse_number.
    pose proof (unorm_not_Nil (N.to_uint (Z.abs_N n))) as Hnil.
    rewrite to_uint_normal in Hnil.
    destruct (N.to_uint (Z.abs_N n)) eqn:Hd; try (now destruct Hnil);
      cbn [NilEmpty.string_of_uint append] in *; rewrite Hdigits;
      f_equal; f_equal; lia.
Qed.

(** ** Member values and members *)

Lemma parse_value_text (v : value) (t tail : string) :
  simple v = true ->
  SerializeJSONProperty v = Some t ->
  delimited tail ->
  skip_ws (t ++ tail) = t ++ tail /\
  parse_value (t ++ tail) = Some (v, tail).
Proof.
  intros Hsimple Ht Htail. destruct v as [| |[|]|n|s]; try discriminate Hsimple;
    injection Ht as <-; try (split; reflexivity).
  - destruct (Number_toString_head n) as (c & s & Hc & Hws & Hq & Hn & Htt & Hf).
    pose proof (parse_number_toString n tail (proj1 (Z.leb_le _ _) Hsimple) Htail)
      as Hnum.
    rewrite Hc in *. cbn [append skip_ws parse_value] in *.
    rewrite Hws, Hq, Hn, Htt, Hf, Hnum. now split.
  - rewrite parse_chars_quote. split; [reflexivity|].
    cbn [parse_value]. change (quotation_mark =? quotation_mark)%char with true.
    cbv iota. now rewrite parse_chars_escape.
Qed.

Lemma skip_ws_delimited (tail : string) :
  delimited tail -> skip_ws tail = tail.
Proof. intros (s & [-> | ->]); reflexivity. Qed.

(** One member read by [parse_members]: the text starts at the key. *)
Lemma parse_members_step (fuel : nat) (k : string) (v : value)
      (t tail : string) (acc : object) :
  simple v = true ->
  SerializeJSONProperty v = Some t ->
  delimited tail ->
  parse_members (S fuel) ((QuoteJSONString k ++ ":" ++ t) ++ tail) acc =
    match tail with
    | String "," s5 => parse_members fuel s5 (define_property k v acc)
    | String "}" s5 => Some (define_property k v acc, s5)
    | _ => None
    end.
Proof.
  intros Hsimple Ht Htail.
  destruct (parse_value_text v t tail Hsimple Ht Htail) as [Hws Hval].
  rewrite append_assoc, parse_chars_quote.
  change ((":" ++ t) ++ tail) with (String ":" (t ++ tail)).
  cbn [parse_members].
  change (skip_ws (String quotation_mark ?s)) with (String quotation_mark s).
  cbv iota.
  change (quotation_mark =? quotation_mark)%char with true. cbv iota.
  rewrite parse_chars_escape.
  change (skip_ws (String ":" (t ++ tail))) with (String ":" (t ++ tail)).
  cbv iota beta.
  rewrite Hws, Hval, (skip_ws_delimited tail Htail). reflexivity.
Qed.

Lemma members_cons_simple (k : string) (v : value) (o : object) :
  simple v = true ->
  exists t, SerializeJSONProperty v = Some t /\
            members ((k, v) :: o) = (QuoteJSONString k ++ ":" ++ t) :: members o.
Proof.
  intros Hsimple. cbn [members].
  destruct (SerializeJSONProperty v) as [t|] eqn:Ht.
  - now exists t.
  - destruct v as [| |[|]| |]; discriminate.
Qed.

Lemma concat_cons2 (sep x y : string) (l : list string) :
  String.concat sep (x :: y :: l) = x ++ sep ++ String.concat sep (y :: l).
Proof. reflexivity. Qed.

Lemma parse_members_text (o : object) :
  forall (k : string) (v : value) (fuel : nat) (acc : object) (rest : string),
    forallb (fun kv => simple (snd kv)) ((k, v) :: o) = true ->
    (List.length o < fuel)%nat ->
    parse_members fuel
      (String.concat "," (members ((k, v) :: o)) ++ String "}" rest) acc
      = Some (define_all ((k, v) :: o) acc, rest).
Proof.
  induction o as [|[k' v'] o IH]; intros k v fuel acc rest Hsimple Hfuel;
    cbn [forallb snd] in Hsimple; apply andb_true_iff in Hsimple as [Hv Ho];
    destruct fuel as [|fuel]; try (exfalso; cbn in Hfuel; lia);
    destruct (members_cons_simple k v [] Hv) as (t & Ht & Hm).
  - rewrite Hm. cbn [String.concat members].
    rewrite (parse_members_step fuel k v t _ acc Hv Ht)
      by (eexists; right; reflexivity).
    reflexivity.
  - destruct (members_cons_simple k v ((k', v') :: o) Hv) as (t2 & Ht2 & Hm2).
    assert (t2 = t) by congruence. subst t2. rewrite Hm2.
    pose proof Ho as Ho'. cbn [forallb snd] in Ho'.
    apply andb_true_iff in Ho' as [Hv' _].
    destruct (members_cons_simple k' v' o Hv') as (t' & Ht' & Hm').
    rewrite Hm', concat_cons2, <- Hm'.
    rewrite (append_assoc (QuoteJSONString k ++ ":" ++ t)).
    change (("," ++ ?c) ++ ?s) with (String "," (c ++ s)).
    rewrite (parse_members_step fuel k v t _ acc Hv Ht)
      by (eexists; left; reflexivity).
    cbv iota.
    rewrite (IH k' v' fuel (define_property k v acc) rest Ho)
      by (cbn in Hfuel; lia).
    reflexivity.
Qed.

(** ** Property order *)

Lemma enumeration_order_later (acc : object) (k : string) (v : value)
      (rest : object) :
  enumeration_order (acc ++ (k, v) :: rest)%list = true ->
  get k acc = None /\ insert k v acc = (acc ++ [(k, v)])%list.
Proof.
  induction acc as [|[k0 v0] acc IH]; intros Hord; [now split|].
  cbn [enumeration_order app] in Hord.
  apply andb_true_iff in Hord as [Hall Hord].
  rewrite forallb_app in Hall. apply andb_true_iff in Hall as [_ Hall].
  cbn [forallb fst] in Hall.
  apply andb_true_iff in Hall as [Hk _].
  apply andb_true_iff in Hk as [Hne Hprec].
  apply negb_true_iff in Hne, Hprec.
  destruct (IH Hord) as [Hget Hins].
  cbn [get insert app]. rewrite String.eqb_sym, Hne, Hprec, Hget, Hins.
  now split.
Qed.

Lemma define_all_ordered (rest : object) :
  forall acc : object,
    enumeration_order (acc ++ rest)%list = true ->
    define_all rest acc = (acc ++ rest)%list.
Proof.
  induction rest as [|[k v] rest IH]; intros acc Hord.
  - now rewrite List.app_nil_r.
  - destruct (enumeration_order_later acc k v rest Hord) as [Hget Hins].
    cbn [define_all fold_left fst snd]. unfold define_property.
    rewrite Hget, Hins. fold (define_all rest (acc ++ [(k, v)])%list).
    rewrite IH; rewrite <- List.app_assoc; [reflexivity | exact Hord].
Qed.

Lemma assign_define_all (o : object) :
  forall acc : object,
    assignable o = true ->
    assign (Object_keys o) (Object_values o) acc = define_all o acc.
Proof.
  induction o as [|[k v] o IH]; intros acc Hok; [reflexivity|].
  cbn [assignable forallb fst] in Hok.
  apply andb_true_iff in Hok as [Hk Hok]. apply negb_true_iff in Hk.
  cbn [Object_keys Object_values map assign fst snd hd tl define_all fold_left].
  unfold put. rewrite Hk. now apply IH.
Qed.

(** ** The text of an object, read back *)

Lemma members_head (k : string) (v : value) (o : object) (tail : string) :
  simple v = true ->
  exists s, String.concat "," (members ((k, v) :: o)) ++ tail
            = String quotation_mark s.
Proof.
  intros Hsimple.
  destruct (members_cons_simple k v o Hsimple) as (t & _ & ->).
  destruct (members o) as [|m ms]; [|rewrite concat_cons2];
    eexists; reflexivity.
Qed.

Lemma members_simple_length (o : object) :
  forallb (fun kv => simple (snd kv)) o = true ->
  List.length (members o) = List.length o.
Proof.
  induction o as [|[k v] o IH]; [reflexivity|].
  cbn [forallb snd]. intros Hs. apply andb_true_iff in Hs as [Hv Ho].
  destruct (members_cons_simple k v o Hv) as (t & _ & ->).
  cbn [List.length]. now rewrite IH.
Qed.

Lemma members_nonempty (o : object) (m : string) :
  In m (members o) -> (1 <= String.length m)%nat.
Proof.
  induction o as [|[k v] o IH]; [intros []|].
  cbn [members]. destruct (SerializeJSONProperty v) as [t|]; [|exact IH].
  intros [<- | Hin]; [|exact (IH Hin)].
  cbn. lia.
Qed.

Lemma concat_length (sep : string) (ms : list string) :
  (forall m, In m ms -> (1 <= String.length m)%nat) ->
  (List.length ms <= String.length (String.concat sep ms))%nat.
Proof.
  induction ms as [|m ms IH]; intros Hne; [apply Nat.le_refl|].
  destruct ms as [|m' ms].
  - cbn [String.concat List.length]. apply Hne. now left.
  - rewrite concat_cons2, !length_append.
    assert (1 <= String.length m)%nat by (apply Hne; now left).
    assert (List.length (m' :: ms) <= String.length (String.concat sep (m' :: ms)))%nat
      by (apply IH; intros x Hx; apply Hne; now right).
    cbn [List.length] in *. lia.
Qed.

(** [JSON.parse] undoes [JSON.stringify] on simple flat objects. *)
Lemma JSON_parse_stringify (o : object) :
  simple_flat o = true -> JSON_parse (JSON_stringify o) = Some o.
Proof.
  unfold simple_flat. intros Hsf. apply andb_true_iff in Hsf as [Hsf _].
  apply andb_true_iff in Hsf as [Hord Hsimple].
  destruct o as [|[k v] o]; [reflexivity|].
  pose proof Hsimple as Hv. cbn [forallb snd] in Hv.
  apply andb_true_iff in Hv as [Hv _].
  unfold JSON_stringify.
  destruct (members ((k, v) :: o)) as [|m ms] eqn:Hm.
  { destruct (members_cons_simple k v o Hv) as (t & _ & Hm'). congruence. }
  rewrite <- Hm. unfold JSON_parse, parse_object.
  change ("{" ++ ?s) with (String "{" s).
  change (skip_ws (String "{" ?s)) with (String "{" s). cbv iota.
  destruct (members_head k v o "}" Hv) as (s1 & Hs1).
  rewrite Hs1.
  change (skip_ws (String quotation_mark s1)) with (String quotation_mark s1).
  cbv iota. rewrite <- Hs1.
  change "}" with (String "}" EmptyString).
  rewrite (parse_members_text o k v _ [] EmptyString Hsimple).
  - rewrite (define_all_ordered _ [] Hord). reflexivity.
  - cbn [String.length]. rewrite length_append.
    pose proof (concat_length "," (members ((k, v) :: o))
                  (members_nonempty ((k, v) :: o))) as Hlen.
    rewrite (members_simple_length _ Hsimple) in Hlen.
    cbn [List.length] in Hlen. lia.
Qed.

(** ** The bound on the number of members *)

Lemma skip_ws_length (s : string) :
  (String.length (skip_ws s) <= String.length s)%nat.
Proof.
  induction s as [|c s IH]; [apply Nat.le_refl|].
  cbn [skip_ws]. destruct (is_ws c); cbn [String.length]; lia.
Qed.

Lemma push_inv (c : ascii) (r : option (string * string))
      (str rest : string) :
  push c r = Some (str, rest) -> exists str', r = Some (str', rest).
Proof.
  destruct r as [[s' rest']|]; [|discriminate].
  intros [= <- <-]. now exists s'.
Qed.

Lemma parse_chars_length (n : nat) :
  forall s str rest,
    (String.length s <= n)%nat ->
    parse_chars s = Some (str, rest) ->
    (String.length rest < String.length s)%nat.
Proof.
  induction n as [|n IH]; intros s str rest Hn Hp.
  - destruct s; [discriminate Hp | cbn in Hn; lia].
  - destruct s as [|c s1]; [discriminate Hp|].
    cbn [parse_chars] in Hp. cbn [String.length] in *.
    assert (Hrec : forall c' s', (String.length s' <= n)%nat ->
              push c' (parse_chars s') = Some (str, rest) ->
              (String.length rest < String.length s')%nat).
    { intros c' s' Hs' Hpush. apply push_inv in Hpush as (str' & Hpush).
      eapply IH; eauto. }
    destruct (c =? quotation_mark)%char.
    { injection Hp as <- <-. lia. }
    destruct (c =? reverse_solidus)%char.
    + destruct s1 as [|e s2]; [discriminate Hp|]. cbn [String.length] in *.
      repeat match type of Hp with
             | (if ?b then _ else _) = _ =>
                 destruct b; [apply Hrec in Hp; lia|]
             end.
      destruct (e =? "u")%char; [|discriminate Hp].
      destruct s2 as [|h1 [|h2 [|h3 [|h4 s3]]]]; try discriminate Hp.
      destruct (code_unit h1 h2 h3 h4) as [u|]; [|discriminate Hp].
      destruct (u <? 256)%N; [|discriminate Hp].
      cbn [String.length] in *. apply Hrec in Hp; lia.
    + destruct (N_of_ascii c <? 32)%N; [discriminate Hp|].
      apply Hrec in Hp; lia.
Qed.

Lemma strip_prefix_length (word : string) :
  forall s rest,
    strip_prefix word s = Some rest ->
    (String.length rest + String.length word = String.length s)%nat.
Proof.
  induction word as [|a word IH]; intros s rest Hs.
  - injection Hs as <-. cbn. lia.
  - destruct s as [|b s]; [discriminate Hs|]. cbn [strip_prefix] in Hs.
    destruct (a =? b)%char; [|discriminate Hs].
    apply IH in Hs. cbn [String.length]. lia.
Qed.

Lemma span_digits_length (s : string) :
  forall ds rest,
    span_digits s = (ds, rest) ->
    (String.length ds + String.length rest = String.length s)%nat.
Proof.
  induction s as [|c s IH]; intros ds rest Hs.
  - injection Hs as <- <-. reflexivity.
  - cbn [span_digits] in Hs. destruct (is_digit c).
    + destruct (span_digits s) as [ds' rest'].
      injection Hs as <- <-. specialize (IH _ _ eq_refl).
      cbn [String.length]. lia.
    + injection Hs as <- <-. reflexivity.
Qed.

Lemma parse_digits_length (s : string) (n : N) (rest : string) :
  parse_digits s = Some (n, rest) ->
  (String.length rest < String.length s)%nat.
Proof.
  unfold parse_digits. destruct (span_digits s) as [ds rest'] eqn:Hspan.
  apply span_digits_length in Hspan.
  destruct ds as [|c ds]; [discriminate|].
  destruct (_ || _); [discriminate|].
  destruct (NilEmpty.uint_of_string (String c ds)); [|discriminate].
  destruct (_ <=? _)%N; [|discriminate].
  intros [= _ <-]. cbn [String.length] in Hspan. lia.
Qed.

Lemma parse_number_length (s : string) (n : Z) (rest : string) :
  parse_number s = Some (n, rest) ->
  (String.length rest < String.length s)%nat.
Proof.
  unfold parse_number.
  assert (Hpos : match parse_digits s with
                 | Some (m, r) => Some (Z.of_N m, r)
                 | None => None
                 end = Some (n, rest) ->
                 (String.length rest < String.length s)%nat).
  { destruct (parse_digits s) as [[m r]|] eqn:Hd; [|discriminate].
    intros [= _ <-]. now apply parse_digits_length in Hd. }
  destruct s as [|c s']; [exact Hpos|].
  destruct (Ascii.eqb_spec c "-") as [-> | Hc].
  - destruct (parse_digits s') as [[m r]|] eqn:Hd; [|discriminate].
    apply parse_digits_length in Hd.
    destruct m; [discriminate|]. intros [= _ <-]. cbn [String.length]. lia.
  - destruct c as [[|] [|] [|] [|] [|] [|] [|] [|]];
      try exact Hpos; now destruct Hc.
Qed.

Lemma parse_value_length (s : string) (v : value) (rest : string) :
  parse_value s = Some (v, rest) ->
  (String.length rest < String.length s)%nat.
Proof.
  destruct s as [|c s']; [discriminate|]. cbn [parse_value].
  assert (Hexp : forall word w,
             word <> EmptyString ->
             expect word w (String c s') = Some (v, rest) ->
             (String.length rest < String.length (String c s'))%nat).
  { intros word w Hne. unfold expect.
    destruct (strip_prefix word (String c s')) as [r|] eqn:Hs; [|discriminate].
    intros [= _ <-]. apply strip_prefix_length in Hs.
    destruct word; [now destruct Hne|]. cbn [String.length] in *. lia. }
  destruct (c =? quotation_mark)%char.
  { destruct (parse_chars s') as [[str r]|] eqn:Hc; [|discriminate].
    intros [= _ <-]. apply (parse_chars_length _ _ _ _ (Nat.le_refl _)) in Hc.
    cbn [String.length]. lia. }
  destruct (c =? "n")%char; [apply Hexp; discriminate|].
  destruct (c =? "t")%char; [apply Hexp; discriminate|].
  destruct (c =? "f")%char; [apply Hexp; discriminate|].
  destruct (parse_number (String c s')) as [[n r]|] eqn:Hn; [|discriminate].
  intros [= _ <-]. now apply parse_number_length in Hn.
Qed.

(** Any bound above the length of the text gives the same result: the
    bound never cuts a parse short. *)
Lemma parse_members_fuel (fuel : nat) :
  forall (fuel' : nat) (s : string) (acc : object),
    (String.length s < fuel)%nat ->
    (String.length s < fuel')%nat ->
    parse_members fuel s acc = parse_members fuel' s acc.
Proof.
  induction fuel as [|fuel IH]; intros fuel' s acc Hf Hf'; [lia|].
  destruct fuel' as [|fuel']; [lia|].
  cbn [parse_members].
  pose proof (skip_ws_length s) as Hws.
  destruct (skip_ws s) as [|q s1]; [reflexivity|].
  destruct (q =? quotation_mark)%char; [|reflexivity].
  destruct (parse_chars s1) as [[key s2]|] eqn:Hkey; [|reflexivity].
  apply (parse_chars_length _ _ _ _ (Nat.le_refl _)) in Hkey.
  pose proof (skip_ws_length s2) as Hws2.
  destruct (skip_ws s2) as [|colon s3]; [reflexivity|].
  pose proof (skip_ws_length s3) as Hws3.
  destruct (parse_value (skip_ws s3)) as [[v s4]|] eqn:Hv.
  - apply parse_value_length in Hv.
    pose proof (skip_ws_length s4) as Hws4.
    destruct (skip_ws s4) as [|d s5].
    + reflexivity.
    + cbn [String.length] in *.
      rewrite (IH fuel' s5 (define_property key v acc)) by lia.
      reflexivity.
  - reflexivity.
Qed.

(** ** getJSON and fromJSON *)

(** C7. For every simple flat object, [getJSON] followed by [fromJSON]
    hands the values of the object, in its enumeration order, to the
    constructor; when the constructor assigns its parameters
    positionally to the fields of the object, in that order, the object
    that comes back has the fields and the values of the original.
    [{radius: 10}] comes back from its text through the constructor of a
    circle. *)
Theorem fromJSON_getJSON_round_trip (obj : object) :
  simple_flat obj = true ->
  (forall C : constructor,
      fromJSON C (getJSON obj) = Some (C (Object_values obj))) /\
  fromJSON (positional (Object_keys obj)) (getJSON obj) = Some obj /\
  fromJSON (positional ["radius"]) (getJSON [("radius", JNumber 10)])
    = Some [("radius", JNumber 10)].
Proof.
  intros Hsf.
  assert (Hany : forall C : constructor,
             fromJSON C (getJSON obj) = Some (C (Object_values obj))).
  { intros C. unfold fromJSON, getJSON.
    now rewrite (JSON_parse_stringify obj Hsf). }
  split; [exact Hany|]. split; [|reflexivity].
  unfold simple_flat in Hsf. apply andb_true_iff in Hsf as [Hsf Hok].
  apply andb_true_iff in Hsf as [Hord _].
  rewrite Hany. unfold positional. rewrite (assign_define_all obj [] Hok).
  f_equal. apply (define_all_ordered obj [] Hord).
Qed.

Lemma fromJSON_getJSON_round_trip_witness :
  fromJSON (positional (Object_keys [("width", JNumber 10); ("height", JNumber 20)]))
           (getJSON [("width", JNumber 10); ("height", JNumber 20)])
    = Some [("width", JNumber 10); ("height", JNumber 20)].
Proof.
  exact (proj1 (proj2 (fromJSON_getJSON_round_trip
                         [("width", JNumber 10); ("height", JNumber 20)]
                         eq_refl))).
Defined.

(** ** The examples documented in the source *)

(** [builder.element('a').attr('href$=".png"').pseudoClass('focus')] *)
Example stringify_attr_example :
  let q := String quotation_mark EmptyString in
  fst ((r <- cssSelectorBuilder.element "a" ;;
        r <- SelectorBuilder.attr r ("href$=" ++ q ++ ".png" ++ q) ;;
        r <- SelectorBuilder.pseudoClass r "focus" ;;
        stringify r) [])
    = Normal ("a[href$=" ++ q ++ ".png" ++ q ++ "]:focus").
Proof. reflexivity. Qed.

(** The nested [combine] of the class comment; the combinator [' '] is
    put between two spaces like any other. *)
Example stringify_nested_combine_example :
  fst ((a <- (r <- cssSelectorBuilder.element "div" ;;
              r <- SelectorBuilder.id r "main" ;;
              r <- SelectorBuilder.class r "container" ;;
              SelectorBuilder.class r "draggable") ;;
        b <- (t <- (r <- cssSelectorBuilder.element "table" ;;
                    SelectorBuilder.id r "data") ;;
              c <- (tr <- (r <- cssSelectorBuilder.element "tr" ;;
                           SelectorBuilder.pseudoClass r "nth-of-type(even)") ;;
                    td <- (r <- cssSelectorBuilder.element "td" ;;
                           SelectorBuilder.pseudoClass r "nth-of-type(even)") ;;
                    cssSelectorBuilder.combine tr " " td) ;;
              cssSelectorBuilder.combine t "~" c) ;;
        s <- cssSelectorBuilder.combine a "+" b ;;
        stringify s) [])
    = Normal "div#main.container.draggable + table#data ~ tr:nth-of-type(even)   td:nth-of-type(even)".
Proof. reflexivity. Qed.

(** [new Rectangle(10, 20)]: the documented area, as long as no other
    rectangle is constructed. *)
Example Rectangle_example :
  fst ((r <- Rectangle.new 10 20 ;; Rectangle.getArea Z.mul r)
         (Rectangle.mkWorld [] None)) = Normal 200%Z.
Proof. reflexivity. Qed.

(** [fromJSON(Circle.prototype, '{"radius":10}')] *)
Example getJSON_example :
  let q := String quotation_mark EmptyString in
  getJSON [("radius", JNumber 10)] = "{" ++ q ++ "radius" ++ q ++ ":10}" /\
  getJSON [("width", JNumber 10); ("height", JNumber 20)]
    = "{" ++ q ++ "width" ++ q ++ ":10," ++ q ++ "height" ++ q ++ ":20}" /\
  fromJSON (positional ["radius"]) ("{" ++ q ++ "radius" ++ q ++ ":10}")
    = Some [("radius", JNumber 10)].
Proof. repeat split. Qed.

(** White space, escapes, a repeated key and array-index keys, as
    [JSON.parse] treats them. *)
Example JSON_parse_example :
  let q := String quotation_mark EmptyString in
  let b := String reverse_solidus EmptyString in
  JSON_parse (" { " ++ q ++ "b" ++ q ++ " : 1 , " ++ q ++ "2" ++ q ++ ":true,"
              ++ q ++ "1" ++ q ++ ": null ," ++ q ++ "b" ++ q ++ ":-7,"
              ++ q ++ "A" ++ b ++ "n" ++ q ++ ":" ++ q ++ b ++ b ++ q ++ "} ")
    = Some [("1", JNull); ("2", JBoolean true); ("b", JNumber (-7));
            (String "A" (String "010" EmptyString), JString b)] /\
  JSON_parse ("{" ++ q ++ "a" ++ q ++ ":01}") = None /\
  JSON_parse ("{" ++ q ++ "a" ++ q ++ ":1,}") = None.
Proof. repeat split. Qed.

(** Outside the simple flat objects the round trip is lost: a field that
    is [undefined] has no member in the text, and the values that follow
    it move up by one parameter. *)
Example undefined_field_is_not_simple :
  simple_flat [("a", JUndefined); ("b", JNumber 1)] = false /\
  fromJSON (positional ["a"; "b"])
           (getJSON [("a", JUndefined); ("b", JNumber 1)])
    = Some [("a", JNumber 1); ("b", JUndefined)].
Proof. split; reflexivity. Qed.

(* ===================================================================== *)
(** * Further properties of the code *)
(* ===================================================================== *)

(** ** What a call leaves alone *)

Lemma nth_error_update_other {A} (h : list A) (l l' : ref) (x : A) :
  l <> l' -> nth_error (update l x h) l' = nth_error h l'.
Proof.
  revert l l'; induction h as [|z h IH]; intros [|l] [|l'] Hne;
    cbn [update nth_error]; try reflexivity; try congruence.
  apply IH. congruence.
Qed.

Lemma length_update {A} (h : list A) (l : ref) (x : A) :
  List.length (update l x h) = List.length h.
Proof.
  revert l; induction h as [|z h IH]; intros [|l]; cbn [update List.length];
    try reflexivity. now rewrite IH.
Qed.

Lemma fragment_other (k : FragmentKind) (this l : ref) (name : string)
      (h : heap) :
  l <> this ->
  nth_error (snd (fragment k this name h)) l = nth_error h l.
Proof.
  intros Hne. destruct (nth_error h this) as [o|] eqn:Hthis.
  - rewrite (fragment_spec k h this o name Hthis).
    destruct ((rank k =? order o)%Z && unique k); [reflexivity|].
    destruct (rank k <? order o)%Z; [reflexivity|].
    cbn [snd]. apply nth_error_update_other. congruence.
  - now rewrite (fragment_dangling k h this name Hthis).
Qed.

Lemma fragment_length (k : FragmentKind) (this : ref) (name : string)
      (h : heap) :
  List.length (snd (fragment k this name h)) = List.length h.
Proof.
  destruct (nth_error h this) as [o|] eqn:Hthis.
  - rewrite (fragment_spec k h this o name Hthis).
    destruct ((rank k =? order o)%Z && unique k); [reflexivity|].
    destruct (rank k <? order o)%Z; [reflexivity|].
    cbn [snd]. apply length_update.
  - now rewrite (fragment_dangling k h this name Hthis).
Qed.

Lemma combine_other (this l left right : ref) (token : string) (h : heap) :
  l <> this ->
  nth_error (snd (SelectorBuilder.combine this left token right h)) l
    = nth_error h l /\
  List.length (snd (SelectorBuilder.combine this left token right h))
    = List.length h.
Proof.
  intros Hne.
  unfold SelectorBuilder.combine, bind, stringify, get_selector,
    set_selector, ret.
  destruct (nth_error h left); [|now split].
  destruct (nth_error h right); [|now split].
  destruct (nth_error h this); [|now split].
  cbn [snd]. split; [apply nth_error_update_other; congruence|].
  apply length_update.
Qed.

(** X1. A fragment call and a [combine] called as a method write to the
    builder they are called on and to nothing else: every other object of
    the store is what it was, and no object is created, whether the call
    completes or throws. *)
Theorem calls_touch_only_their_builder (h : heap) (this l : ref) :
  l <> this ->
  (forall (k : FragmentKind) (name : string),
      nth_error (snd (fragment k this name h)) l = nth_error h l /\
      List.length (snd (fragment k this name h)) = List.length h) /\
  (forall (left right : ref) (token : string),
      nth_error (snd (SelectorBuilder.combine this left token right h)) l
        = nth_error h l /\
      List.length (snd (SelectorBuilder.combine this left token right h))
        = List.length h).
Proof.
  intros Hne. split.
  - intros k name. split; [now apply fragment_other | apply fragment_length].
  - intros left right token. now apply combine_other.
Qed.

Lemma calls_touch_only_their_builder_witness :
  nth_error (snd (fragment Class 0%nat "b" [mk "a" ORDER.element; mk "p" ORDER.element]))
            1%nat
    = Some (mk "p" ORDER.element) /\
  nth_error (snd (SelectorBuilder.combine 0%nat 1%nat "+" 1%nat
                    [mk "a" ORDER.element; mk "p" ORDER.element])) 1%nat
    = Some (mk "p" ORDER.element).
Proof.
  assert (Hne : 1%nat <> 0%nat) by discriminate.
  split.
  - exact (proj1 (proj1 (calls_touch_only_their_builder
             [mk "a" ORDER.element; mk "p" ORDER.element] 0%nat 1%nat Hne)
             Class "b")).
  - exact (proj1 (proj2 (calls_touch_only_their_builder
             [mk "a" ORDER.element; mk "p" ORDER.element] 0%nat 1%nat Hne)
             1%nat 1%nat "+")).
Defined.

(** ** Which builds succeed *)

Lemma admissible_nondecreasing (ks : list FragmentKind) :
  forall cur : Z,
    admissible cur ks -> nondecreasing (cur :: map rank ks) = true.
Proof.
  induction ks as [|k ks IH]; intros cur Hadm; [reflexivity|].
  destruct Hadm as (Hle & _ & Hadm).
  change (((cur <=? rank k)%Z && nondecreasing (rank k :: map rank ks)) = true).
  apply andb_true_iff. split; [now apply Z.leb_le | now apply IH].
Qed.

(** X2. A build through the facade completes normally exactly when the
    kinds of its calls form a valid ordering: ranks never decrease and
    element, id and pseudo-element occur at most once each. *)
Theorem build_succeeds_iff_valid_ordering
        (f : FragmentKind * string) (fs : list (FragmentKind * string))
        (h : heap) :
  (exists (r : ref) (h' : heap), build f fs h = (Normal r, h')) <->
  valid_ordering (map fst (f :: fs)).
Proof.
  destruct f as [k name]. split.
  - intros (r & h' & Hrun). apply build_normal_inv in Hrun as (Hadm & _ & _).
    pose proof (admissible_from_initial k _ Hadm) as Hinit.
    split; [exact (admissible_nondecreasing _ _ Hadm)|].
    repeat split; now apply (admissible_occurrences _ ORDER.initial).
  - intros Hvalid. apply valid_ordering_admissible in Hvalid.
    destruct Hvalid as (_ & _ & Hadm).
    eexists _, _. apply build_admissible, Hadm.
Qed.

Lemma build_succeeds_iff_valid_ordering_witness :
  valid_ordering (map fst [(Id, "main"); (Class, "a"); (Class, "b")]) /\
  ~ valid_ordering (map fst [(Class, "a"); (Id, "main")]).
Proof.
  split.
  - apply (proj1 (build_succeeds_iff_valid_ordering
                    (Id, "main") [(Class, "a"); (Class, "b")] [])).
    eexists _, _. reflexivity.
  - intros Hv.
    apply (proj2 (build_succeeds_iff_valid_ordering
                    (Class, "a") [(Id, "main")] [])) in Hv.
    destruct Hv as (r & h' & Hrun). discriminate Hrun.
Defined.

(** X3. Nothing follows a pseudo-element: on a builder on which
    [pseudoElement] has just succeeded, every further fragment call
    throws (the duplicate violation for another pseudo-element, the
    order violation for every other kind) and changes nothing. *)
Theorem nothing_follows_pseudoElement
        (this : ref) (n : string) (h : heap) (r : ref) (h' : heap) :
  SelectorBuilder.pseudoElement this n h = (Normal r, h') ->
  forall (k : FragmentKind) (name : string),
    fragment k r name h' =
      (match k with
       | PseudoElement => DuplicateViolation
       | _ => OrderViolation
       end, h').
Proof.
  intros Hrun k name.
  apply (fragment_normal_inv PseudoElement) in Hrun.
  destruct Hrun as (-> & o & _ & Hafter).
  rewrite (fragment_spec k h' this _ name Hafter).
  destruct k; reflexivity.
Qed.

Lemma nothing_follows_pseudoElement_witness :
  fragment Class 0%nat "x" [mk "p::after" ORDER.pseudoElement]
    = (OrderViolation, [mk "p::after" ORDER.pseudoElement]).
Proof.
  exact (nothing_follows_pseudoElement 0%nat "after" [mk "p" ORDER.element]
           0%nat [mk "p::after" ORDER.pseudoElement] eq_refl Class "x").
Defined.

(** X4. On a builder, a fragment call has one of three outcomes and no
    other: it raises the duplicate violation exactly when its rank is the
    recorded one and its kind is element, id or pseudo-element; it
    completes normally, returning the builder, exactly when its rank is
    not below the recorded one and the former case does not apply; it
    raises the order violation otherwise. *)
Theorem fragment_outcomes
        (k : FragmentKind) (h : heap) (this : ref) (name : string) (o : t) :
  nth_error h this = Some o ->
  (fst (fragment k this name h) = DuplicateViolation <->
   rank k = order o /\ unique k = true) /\
  (fst (fragment k this name h) = Normal this <->
   (order o <= rank k)%Z /\ (rank k = order o -> unique k = false)) /\
  (fst (fragment k this name h) = DuplicateViolation \/
   fst (fragment k this name h) = OrderViolation \/
   fst (fragment k this name h) = Normal this).
Proof.
  intros Hthis. rewrite (fragment_spec k h this o name Hthis).
  destruct (Z.eqb_spec (rank k) (order o)) as [Heq | Hne];
    destruct (unique k) eqn:Hu; cbn [andb fst].
  - intuition (try discriminate; try lia).
  - rewrite Heq, Z.ltb_irrefl. cbn [fst].
    intuition (try discriminate; try lia).
  - destruct (Z.ltb_spec (rank k) (order o)); cbn [fst];
      intuition (try discriminate; try lia).
  - destruct (Z.ltb_spec (rank k) (order o)); cbn [fst];
      intuition (try discriminate; try lia).
Qed.

Lemma fragment_outcomes_witness :
  fst (fragment Id 0%nat "b" [mk "#a" ORDER.id]) = DuplicateViolation /\
  fst (fragment Class 0%nat "b" [mk "#a" ORDER.id]) = Normal 0%nat.
Proof.
  split.
  - apply (proj1 (fragment_outcomes Id [mk "#a" ORDER.id] 0%nat "b"
                    (mk "#a" ORDER.id) eq_refl)).
    split; reflexivity.
  - apply (proj1 (proj2 (fragment_outcomes Class [mk "#a" ORDER.id] 0%nat "b"
                           (mk "#a" ORDER.id) eq_refl))).
    split; [discriminate | reflexivity].
Defined.

(** ** Chains, whatever their outcome *)

Lemma chain_other (fs : list (FragmentKind * string)) :
  forall (this l : ref) (h : heap),
    l <> this ->
    nth_error (snd (chain this fs h)) l = nth_error h l /\
    List.length (snd (chain this fs h)) = List.length h.
Proof.
  induction fs as [|[k name] fs IH]; intros this l h Hne; [now split|].
  cbn [chain]. unfold bind.
  pose proof (fragment_other k this l name h Hne) as Hfr.
  pose proof (fragment_length k this name h) as Hlen.
  destruct (fragment k this name h) as [[r|e] h1] eqn:Hrun;
    cbn [snd] in Hfr, Hlen |- *; [|now split].
  apply fragment_normal_inv in Hrun as (-> & _).
  destruct (IH this l h1 Hne) as [Hfr' Hlen']. split; congruence.
Qed.

(** X5. Whatever a chain of fragment calls does, and whether or not it
    runs to its end, the builder only grows: its recorded rank is not
    below what it was and its text is the old text with something
    appended. *)
Theorem chain_only_extends
        (fs : list (FragmentKind * string)) (this : ref) (h : heap) (o : t) :
  nth_error h this = Some o ->
  exists (o' : t) (appended : string),
    nth_error (snd (chain this fs h)) this = Some o' /\
    (order o <= order o')%Z /\
    selector o' = selector o ++ appended.
Proof.
  revert h o. induction fs as [|[k name] fs IH]; intros h o Hthis.
  - exists o, EmptyString. cbn [chain ret snd].
    repeat split; [exact Hthis | apply Z.le_refl | now rewrite append_nil_r].
  - assert (Hstay : exists (o' : t) (appended : string),
               nth_error h this = Some o' /\
               (order o <= order o')%Z /\
               selector o' = selector o ++ appended).
    { exists o, EmptyString.
      repeat split; [exact Hthis | apply Z.le_refl | now rewrite append_nil_r]. }
    cbn [chain]. unfold bind.
    rewrite (fragment_spec k h this o name Hthis).
    destruct ((rank k =? order o)%Z && unique k); [exact Hstay|].
    destruct (Z.ltb_spec (rank k) (order o)) as [Hlt | Hge]; [exact Hstay|].
    destruct (IH _ _ (nth_error_update_eq h this
                        (mk (selector o ++ fragment_text k name) (rank k))
                        o Hthis))
      as (o' & appended & Hafter & Hle & Hsel).
    exists o', (fragment_text k name ++ appended).
    cbn [order selector] in Hle, Hsel.
    repeat split; [exact Hafter | lia | now rewrite Hsel, append_assoc].
Qed.

Lemma chain_only_extends_witness :
  exists (o' : t) (appended : string),
    nth_error (snd (chain 0%nat [(Class, "b"); (Id, "c"); (Class, "d")]
                          [mk "#a" ORDER.id])) 0%nat = Some o' /\
    (ORDER.id <= order o')%Z /\
    selector o' = "#a" ++ appended.
Proof.
  exact (chain_only_extends [(Class, "b"); (Id, "c"); (Class, "d")] 0%nat
           [mk "#a" ORDER.id] (mk "#a" ORDER.id) eq_refl).
Defined.

(** X6. A chain stops at its first failing call: when the calls [fs1]
    complete and the next call throws, the chain throws the same thing,
    the calls after it are never made, and the builder keeps what [fs1]
    appended. *)
Theorem chain_stops_at_first_failure
        (fs1 fs2 : list (FragmentKind * string)) (k : FragmentKind)
        (name : string) (this r : ref) (h h1 : heap) (e : thrown) :
  chain this fs1 h = (Normal r, h1) ->
  fst (fragment k r name h1) = Throw e ->
  chain this (fs1 ++ (k, name) :: fs2)%list h = (Throw e, h1).
Proof.
  revert this h. induction fs1 as [|[k1 n1] fs1 IH]; intros this h Hrun Hfail.
  - injection Hrun as <- <-. cbn [app chain]. unfold bind.
    pose proof (fragment_throw_keeps_heap k h this name e Hfail) as Hsame.
    destruct (fragment k this name h) as [c h2]. cbn [fst snd] in *.
    now subst.
  - cbn [app chain] in *. unfold bind in *.
    destruct (fragment k1 this n1 h) as [[r1|e1] h2]; [|discriminate Hrun].
    now apply IH.
Qed.

Lemma chain_stops_at_first_failure_witness :
  chain 0%nat ([(Class, "b")] ++ (Id, "c") :: [(Class, "d")])%list
        [mk "#a" ORDER.id]
    = (OrderViolation, [mk "#a.b" ORDER.class]).
Proof.
  exact (chain_stops_at_first_failure [(Class, "b")] [(Class, "d")] Id "c"
           0%nat 0%nat [mk "#a" ORDER.id] [mk "#a.b" ORDER.class]
           (ThrownString wrongOrderProblem) eq_refl eq_refl).
Defined.

(** X7. Every build through the facade works on a builder of its own:
    whether it completes or throws, it creates exactly one object and
    leaves every selector that existed before as it was. *)
Theorem facade_builds_on_a_fresh_builder
        (f : FragmentKind * string) (fs : list (FragmentKind * string))
        (h : heap) :
  List.length (snd (build f fs h)) = S (List.length h) /\
  forall (l : ref) (o : t),
    nth_error h l = Some o ->
    nth_error (snd (build f fs h)) l = Some o.
Proof.
  destruct f as [k name]. unfold build, bind. cbn [fst snd].
  rewrite entry_spec.
  set (h0 := (h ++ [mk (fragment_text k name) (rank k)])%list).
  assert (Hlen0 : List.length h0 = S (List.length h))
    by (unfold h0; rewrite length_app; cbn; lia).
  split.
  - destruct (chain_other fs (List.length h) (S (List.length h)) h0) as [_ Hlen];
      [lia|]. now rewrite Hlen.
  - intros l o Hl.
    assert (Hlt : (l < List.length h)%nat)
      by (apply nth_error_Some; congruence).
    destruct (chain_other fs (List.length h) l h0) as [Hfr _]; [lia|].
    rewrite Hfr. unfold h0. now apply nth_error_alloc_old.
Qed.

(** X8. For a selector built through the facade, the recorded rank is the
    rank of the fragment appended last, a rank from 1 to 6. *)
Theorem recorded_rank_is_rank_of_last_fragment
        (f : FragmentKind * string) (fs : list (FragmentKind * string))
        (h : heap) (r : ref) (h' : heap) :
  build f fs h = (Normal r, h') ->
  get_order r h' = (Normal (rank (last_kind f fs)), h') /\
  (1 <= rank (last_kind f fs) <= 6)%Z.
Proof.
  intros Hrun. destruct f as [k name].
  apply build_normal_inv in Hrun as (_ & -> & ->).
  split.
  - unfold get_order. rewrite nth_error_alloc. cbn [order].
    now rewrite (final_rank_last k name fs).
  - destruct (last_kind (k, name) fs); split; discriminate.
Qed.

Lemma recorded_rank_is_rank_of_last_fragment_witness :
  get_order 0%nat [mk "div#main.a" ORDER.class]
    = (Normal ORDER.class, [mk "div#main.a" ORDER.class]).
Proof.
  exact (proj1 (recorded_rank_is_rank_of_last_fragment
                  (Element, "div") [(Id, "main"); (Class, "a")] []
                  0%nat [mk "div#main.a" ORDER.class] eq_refl)).
Defined.

(** ** [combine], nested *)

(** X9. Nesting [combine] to the left or to the right renders the same
    text: [combine(combine(a, t1, b), t2, c)] and
    [combine(a, t1, combine(b, t2, c))] both stringify to the three
    renderings joined by the two tokens, each token between two spaces. *)
Theorem nested_combine_is_associative
        (h : heap) (a b c : ref) (t1 t2 sa sb sc : string) :
  fst (stringify a h) = Normal sa ->
  fst (stringify b h) = Normal sb ->
  fst (stringify c h) = Normal sc ->
  fst ((x <- cssSelectorBuilder.combine a t1 b ;;
        y <- cssSelectorBuilder.combine x t2 c ;;
        stringify y) h)
    = Normal (sa ++ " " ++ t1 ++ " " ++ sb ++ " " ++ t2 ++ " " ++ sc) /\
  fst ((y <- cssSelectorBuilder.combine b t2 c ;;
        x <- cssSelectorBuilder.combine a t1 y ;;
        stringify x) h)
    = Normal (sa ++ " " ++ t1 ++ " " ++ sb ++ " " ++ t2 ++ " " ++ sc).
Proof.
  intros Ha Hb Hc.
  apply stringify_inv in Ha as (oa & Ha & <-).
  apply stringify_inv in Hb as (ob & Hb & <-).
  apply stringify_inv in Hc as (oc & Hc & <-).
  split.
  - unfold bind at 1.
    rewrite (facade_combine_spec h a b t1 oa ob Ha Hb).
    set (x := mk (selector oa ++ " " ++ t1 ++ " " ++ selector ob) ORDER.initial).
    unfold bind at 1.
    rewrite (facade_combine_spec _ _ c t2 x oc (nth_error_alloc h x)
               (nth_error_alloc_old h x c oc Hc)).
    unfold stringify, get_selector. rewrite nth_error_alloc. cbn [fst selector].
    unfold x. cbn [selector]. now rewrite !append_assoc.
  - unfold bind at 1.
    rewrite (facade_combine_spec h b c t2 ob oc Hb Hc).
    set (y := mk (selector ob ++ " " ++ t2 ++ " " ++ selector oc) ORDER.initial).
    unfold bind at 1.
    rewrite (facade_combine_spec _ a _ t1 oa y
               (nth_error_alloc_old h y a oa Ha) (nth_error_alloc h y)).
    unfold stringify, get_selector. rewrite nth_error_alloc. cbn [fst selector].
    unfold y. cbn [selector]. reflexivity.
Qed.

Lemma nested_combine_is_associative_witness :
  fst ((x <- cssSelectorBuilder.combine 0%nat ">" 1%nat ;;
        y <- cssSelectorBuilder.combine x "+" 2%nat ;;
        stringify y)
         [mk "ul" ORDER.element; mk "li" ORDER.element; mk "a" ORDER.element])
    = Normal "ul > li + a" /\
  fst ((y <- cssSelectorBuilder.combine 1%nat "+" 2%nat ;;
        x <- cssSelectorBuilder.combine 0%nat ">" y ;;
        stringify x)
         [mk "ul" ORDER.element; mk "li" ORDER.element; mk "a" ORDER.element])
    = Normal "ul > li + a".
Proof.
  exact (nested_combine_is_associative
           [mk "ul" ORDER.element; mk "li" ORDER.element; mk "a" ORDER.element]
           0%nat 1%nat 2%nat ">" "+" "ul" "li" "a" eq_refl eq_refl eq_refl).
Defined.

Lemma facade_builds_on_a_fresh_builder_witness :
  nth_error (snd (build (Class, "b") [(Id, "c")] [mk "#a" ORDER.id])) 0%nat
    = Some (mk "#a" ORDER.id).
Proof.
  exact (proj2 (facade_builds_on_a_fresh_builder (Class, "b") [(Id, "c")]
                  [mk "#a" ORDER.id]) 0%nat (mk "#a" ORDER.id) eq_refl).
Defined.

(** ** Rectangle: the fields *)

(** X10. The constructor stores its two arguments on the new instance,
    and the [width] and [height] of an instance that existed before are
    not changed by a later construction (it is only [getArea] that
    follows the latest instance). *)
Theorem fields_belong_to_their_instance
        {number : Type} (w : Rectangle.world) (width height : number) :
  fst ((r <- Rectangle.new width height ;;
        a <- RectangleFields.get_width r ;;
        b <- RectangleFields.get_height r ;;
        ret (a, b)) w) = Normal (width, height) /\
  forall (r : ref) (o : Rectangle.instance),
    nth_error (Rectangle.instances w) r = Some o ->
    fst ((_ <- Rectangle.new width height ;;
          a <- RectangleFields.get_width r ;;
          b <- RectangleFields.get_height r ;;
          ret (a, b)) w) = Normal (Rectangle.width o, Rectangle.height o).
Proof.
  split.
  - unfold bind, Rectangle.new, RectangleFields.get_width,
      RectangleFields.get_height, ret.
    cbn [Rectangle.instances fst snd].
    rewrite nth_error_alloc. cbn [Rectangle.instances fst snd].
    now rewrite nth_error_alloc.
  - intros r o Hr.
    unfold bind, Rectangle.new, RectangleFields.get_width,
      RectangleFields.get_height, ret.
    cbn [Rectangle.instances fst snd].
    rewrite (nth_error_alloc_old _ _ r o Hr). cbn [Rectangle.instances fst snd].
    now rewrite (nth_error_alloc_old _ _ r o Hr).
Qed.

Lemma fields_belong_to_their_instance_witness :
  fst ((_ <- Rectangle.new 3 4 ;;
        a <- RectangleFields.get_width 0%nat ;;
        b <- RectangleFields.get_height 0%nat ;;
        ret (a, b))
         (Rectangle.mkWorld [Rectangle.mkInstance 10 20]
                            (Some (Rectangle.mkArrow 0%nat))))
    = Normal (10, 20)%Z.
Proof.
  exact (proj2 (fields_belong_to_their_instance
                  (Rectangle.mkWorld [Rectangle.mkInstance 10 20]
                                     (Some (Rectangle.mkArrow 0%nat)))
                  3%Z 4%Z) 0%nat (Rectangle.mkInstance 10 20) eq_refl).
Defined.

(** ** getJSON and fromJSON: names, gaps *)

(** X11. [fromJSON] hands the values over by position and drops the
    property names: two simple flat objects that hold the same values in
    the same order give the same result, whatever their fields are
    called. *)
Theorem fromJSON_ignores_property_names
        (o1 o2 : object) (C : constructor) :
  simple_flat o1 = true ->
  simple_flat o2 = true ->
  Object_values o1 = Object_values o2 ->
  fromJSON C (getJSON o1) = fromJSON C (getJSON o2).
Proof.
  intros H1 H2 Hvalues. unfold fromJSON, getJSON.
  rewrite (JSON_parse_stringify o1 H1), (JSON_parse_stringify o2 H2).
  now rewrite Hvalues.
Qed.

Lemma fromJSON_ignores_property_names_witness :
  fromJSON (positional ["radius"]) (getJSON [("radius", JNumber 10)])
    = fromJSON (positional ["radius"]) (getJSON [("side", JNumber 10)]).
Proof.
  exact (fromJSON_ignores_property_names
           [("radius", JNumber 10)] [("side", JNumber 10)]
           (positional ["radius"]) eq_refl eq_refl eq_refl).
Defined.

(** X12. [getJSON] tells simple flat objects apart: two of them with the
    same text are the same object, field by field and in the same
    order. *)
Theorem getJSON_is_injective (o1 o2 : object) :
  simple_flat o1 = true ->
  simple_flat o2 = true ->
  getJSON o1 = getJSON o2 ->
  o1 = o2.
Proof.
  intros H1 H2 Htext. unfold getJSON in Htext.
  pose proof (JSON_parse_stringify o1 H1) as Hp1.
  rewrite Htext, (JSON_parse_stringify o2 H2) in Hp1.
  now injection Hp1.
Qed.

Lemma getJSON_is_injective_witness :
  [("width", JNumber 10); ("height", JNumber 20)]
    = [("width", JNumber 10); ("height", JNumber 20)] /\
  getJSON [("radius", JNumber 10)] <> getJSON [("side", JNumber 10)].
Proof.
  split.
  - exact (getJSON_is_injective
             [("width", JNumber 10); ("height", JNumber 20)]
             [("width", JNumber 10); ("height", JNumber 20)]
             eq_refl eq_refl eq_refl).
  - intros Htext.
    apply (getJSON_is_injective [("radius", JNumber 10)] [("side", JNumber 10)]
             eq_refl eq_refl) in Htext.
    discriminate Htext.
Defined.

Lemma members_defined_fields (o : object) :
  members (defined_fields o) = members o.
Proof.
  induction o as [|[k v] o IH]; [reflexivity|].
  unfold defined_fields in *. cbn [filter snd].
  destruct v as [| |[|]|n|s]; cbn [members SerializeJSONProperty];
    now rewrite IH.
Qed.

(** X13. A field that holds [undefined] leaves no trace in the text of
    [getJSON], so that [fromJSON] passes the constructor the values of
    the other fields only, each moved up past the gaps before it. *)
Theorem undefined_fields_are_not_passed_on (o : object) (C : constructor) :
  simple_flat (defined_fields o) = true ->
  getJSON o = getJSON (defined_fields o) /\
  fromJSON C (getJSON o) = Some (C (Object_values (defined_fields o))).
Proof.
  intros Hsf.
  assert (Htext : getJSON o = getJSON (defined_fields o))
    by (unfold getJSON, JSON_stringify; now rewrite members_defined_fields).
  split; [exact Htext|].
  rewrite Htext. unfold fromJSON, getJSON.
  now rewrite (JSON_parse_stringify _ Hsf).
Qed.

Lemma undefined_fields_are_not_passed_on_witness :
  fromJSON (positional ["a"; "b"; "c"])
           (getJSON [("a", JNumber 1); ("b", JUndefined); ("c", JNumber 3)])
    = Some [("a", JNumber 1); ("b", JNumber 3); ("c", JUndefined)].
Proof.
  exact (proj2 (undefined_fields_are_not_passed_on
                  [("a", JNumber 1); ("b", JUndefined); ("c", JNumber 3)]
                  (positional ["a"; "b"; "c"]) eq_refl)).
Defined.
